(** * The Telegram notification service of visa-checker

    A shallow embedding of [src/services/telegram.ts]: the HTML formatter
    ([escapeHtml], [formatMessage]) and the outbound dispatch queue
    ([sendNotification], [processQueue]) of the class [TelegramService].

    Strings are Rocq [string]s holding the UTF-8 bytes of the JavaScript
    string.  Every character the code inspects ([&], [<], [>], the double
    quote, the apostrophe, and the two error-message needles) is ASCII, and an
    ASCII byte never occurs inside a multi-byte UTF-8 sequence, so replacing
    and searching byte-wise agrees with the code-unit-wise JavaScript
    operations.

    The service runs on the single JavaScript thread.  [processQueue] is an
    async function: an activation of it runs until its next [await], and is
    resumed in a later turn when the timer fires or the promise of
    [sendMessage] settles; calls of [sendNotification] come in between.  The
    model is a transition system whose steps are these turns.  A state holds
    the three fields of [TelegramService], the suspended activations, the
    clock, and what has gone out so far.  Numbers are integers (clock
    readings in milliseconds) and exact rationals (the rate and the delays
    computed from it). *)

From Stdlib Require Import List String Ascii Bool ZArith QArith Lia Lqa.
From Stdlib Require Import DecimalString.
Import ListNotations.

Open Scope string_scope.

(** ** Data model *)

(** Modelled from the spec: the interface [VisaAppointment] of [../types],
    which is not among the sources.  The fields are those [formatMessage] and
    [processQueue] read.  A field the code guards against a missing value
    ([x || ...], or [if (!text)] in [escapeHtml]) is an [option]; a field the
    code dereferences directly ([country_code.toUpperCase()]) is a plain
    string. *)
Record VisaAppointment : Type := mkAppointment {
  id : Z;
  status : string;
  center : option string;
  country_code : string;
  mission_code : string;
  visa_category : option string;
  visa_type : option string;
  last_available_date : option string;
  tracking_count : option Z;
  last_checked_at : string
}.

(** The built-ins of the JavaScript runtime that [formatMessage] calls and
    whose tables (Unicode case mapping, the tr-TR date format in the
    Europe/Istanbul time zone) are outside the repository. *)
Record Runtime : Type := mkRuntime {
  toUpperCase : string -> string;
  (* new Date(x).toLocaleString('tr-TR', {day: '2-digit', ...}) *)
  toLocaleString_trTR : string -> string
}.

(** ** JavaScript string helpers *)

Definition dquote : ascii := "034"%char.
Definition nl : string := String "010"%char EmptyString.

(** [s.replace(/c/g, r)] for a single literal character [c] and a
    replacement [r] without [$] patterns. *)
Fixpoint replaceAll (c : ascii) (r : string) (s : string) : string :=
  match s with
  | EmptyString => EmptyString
  | String x rest =>
      if Ascii.eqb x c then r ++ replaceAll c r rest
      else String x (replaceAll c r rest)
  end.

(** [s.includes(needle)] *)
Fixpoint includes (s needle : string) : bool :=
  String.prefix needle s ||
  match s with
  | EmptyString => false
  | String _ rest => includes rest needle
  end.

(** Truthiness of a possibly missing string: [undefined], [null] and the
    empty string are falsy. *)
Definition truthy (x : option string) : bool :=
  match x with
  | None => false
  | Some EmptyString => false
  | Some _ => true
  end.

(** [x || dflt] on a possibly missing string. *)
Definition orElse (x : option string) (dflt : string) : string :=
  match x with
  | Some (String c s) => String c s
  | _ => dflt
  end.

(** [n || 0] on a possibly missing integer counter, then its decimal
    rendering in the template literal. *)
Definition countOrZero (n : option Z) : Z :=
  match n with
  | Some k => k
  | None => 0%Z
  end.

(** The counter is taken to be an integer of fewer than 22 digits, which
    JavaScript prints digit by digit. *)
Definition numberToString (n : Z) : string :=
  NilZero.string_of_int (Z.to_int n).

(** ** The formatter *)

Module Formatter.

(** [escapeHtml], lines 33-41. *)
Definition escapeHtml (text : option string) : string :=
  match text with
  | Some (String c s) =>
      replaceAll "'" "&#39;"
        (replaceAll dquote "&quot;"
          (replaceAll ">" "&gt;"
            (replaceAll "<" "&lt;"
              (replaceAll "&" "&amp;" (String c s)))))
  | _ => EmptyString
  end.

(** The chain of replacements in [escapeHtml], on any text. *)
Definition fiveReplacements (s : string) : string :=
  replaceAll "'" "&#39;"
    (replaceAll dquote "&quot;"
      (replaceAll ">" "&gt;"
        (replaceAll "<" "&lt;"
          (replaceAll "&" "&amp;" s)))).

Definition placeholder : string := "Belirtilmemiş".

Definition statusEmoji (a : VisaAppointment) : string :=
  if String.eqb (status a) "open" then "✅"
  else if String.eqb (status a) "waitlist_open" then "⏳"
  else "❓".

Definition statusText (a : VisaAppointment) : string :=
  if String.eqb (status a) "open" then "Açık"
  else if String.eqb (status a) "waitlist_open" then "Bekleme Listesi Açık"
  else status a.

(** The rendering of each interpolated expression of the template. *)
Definition centerText (a : VisaAppointment) : string :=
  escapeHtml (center a).
Definition countryText (rt : Runtime) (a : VisaAppointment) : string :=
  escapeHtml (Some (toUpperCase rt (country_code a))).
Definition missionText (rt : Runtime) (a : VisaAppointment) : string :=
  escapeHtml (Some (toUpperCase rt (mission_code a))).
Definition categoryText (a : VisaAppointment) : string :=
  escapeHtml (Some (orElse (visa_category a) placeholder)).
Definition typeText (a : VisaAppointment) : string :=
  escapeHtml (Some (orElse (visa_type a) placeholder)).
Definition dateText (a : VisaAppointment) : string :=
  escapeHtml (Some (orElse (last_available_date a) placeholder)).
Definition trackingText (a : VisaAppointment) : string :=
  numberToString (countOrZero (tracking_count a)).
Definition lastCheckedText (rt : Runtime) (a : VisaAppointment) : string :=
  escapeHtml (Some (toLocaleString_trTR rt (last_checked_at a))).

(** [formatMessage], lines 44-82. *)
Definition formatMessage (rt : Runtime) (a : VisaAppointment) : string :=
  "<b>" ++ statusEmoji a ++ " YENİ RANDEVU DURUMU</b>" ++ nl ++
  nl ++
  "🏢 <b>Merkez:</b> " ++ centerText a ++ nl ++
  "🌍 <b>Ülke/Misyon:</b> " ++ countryText rt a ++ " → " ++ missionText rt a ++ nl ++
  "🛂 <b>Kategori:</b> " ++ categoryText a ++ nl ++
  "📄 <b>Tip:</b> " ++ typeText a ++ nl ++
  "🚦 <b>Durum:</b> " ++ statusEmoji a ++ " " ++ escapeHtml (Some (statusText a)) ++ nl ++
  "🗓️ <b>Son Müsait Tarih:</b> " ++ dateText a ++ nl ++
  "📊 <b>Takip Sayısı:</b> " ++ trackingText a ++ nl ++
  "⏰ <b>Son Kontrol:</b> " ++ lastCheckedText rt a ++ nl ++
  nl ++
  "<i>Bu randevu otomatik olarak tespit edilmiştir.</i>".

(** *** What the specification says about escaping, character by character *)

Definition escapeChar (c : ascii) : string :=
  if Ascii.eqb c "&" then "&amp;"
  else if Ascii.eqb c "<" then "&lt;"
  else if Ascii.eqb c ">" then "&gt;"
  else if Ascii.eqb c dquote then "&quot;"
  else if Ascii.eqb c "'" then "&#39;"
  else String c EmptyString.

(** Every markup character replaced by its entity, every other character kept
    as it is, in the original order. *)
Fixpoint escapeSpec (s : string) : string :=
  match s with
  | EmptyString => EmptyString
  | String c rest => escapeChar c ++ escapeSpec rest
  end.

Definition isMarkup (c : ascii) : bool :=
  Ascii.eqb c "&" || Ascii.eqb c "<" || Ascii.eqb c ">" ||
  Ascii.eqb c dquote || Ascii.eqb c "'".

Definition startsEntity (s : string) : bool :=
  String.prefix "&amp;" s || String.prefix "&lt;" s || String.prefix "&gt;" s ||
  String.prefix "&quot;" s || String.prefix "&#39;" s.

(** A text shows markup characters only in escaped form: it has no [<], [>],
    double quote or apostrophe, and each [&] opens one of the five
    entities. *)
Fixpoint onlyEscaped (s : string) : bool :=
  match s with
  | EmptyString => true
  | String c rest =>
      if Ascii.eqb c "&" then startsEntity s && onlyEscaped rest
      else negb (isMarkup c) && onlyEscaped rest
  end.

(** How often a character occurs in a text. *)
Fixpoint countChar (c : ascii) (s : string) : nat :=
  match s with
  | EmptyString => 0
  | String x rest => (if Ascii.eqb x c then 1 else 0) + countChar c rest
  end.

(** Every [&] of a text opens one of the five entities. *)
Fixpoint ampsEscaped (s : string) : bool :=
  match s with
  | EmptyString => true
  | String c rest =>
      (if Ascii.eqb c "&" then startsEntity s else true) && ampsEscaped rest
  end.

(** Whether a text holds one of the five markup characters. *)
Fixpoint hasMarkup (s : string) : bool :=
  match s with
  | EmptyString => false
  | String c rest => isMarkup c || hasMarkup rest
  end.

End Formatter.

(** ** The dispatcher *)

(** Modelled from the spec: the object [config] of [../config/environment],
    which is not among the sources; the fields are those the service reads
    ([config.telegram.*] and [config.app.debug]). *)
Record Config : Type := mkConfig {
  botToken : string;
  channelId : string;
  rateLimit : Q;      (* messages per minute *)
  retryAfter : Z;     (* milliseconds *)
  debug : bool
}.

(** A value caught by [catch (error)]: an [Error] instance with its
    [message], or any other thrown value with what [String(error)] gives. *)
Inductive JsError : Type :=
| ErrorInstance (message : string)
| ThrownValue (asString : string).

(** How the promise returned by [bot.telegram.sendMessage] settles. *)
Inductive SendResult : Type :=
| Resolved
| Rejected (error : JsError).

(** One call of [bot.telegram.sendMessage(chat, text, {parse_mode})];
    [callFor] remembers the appointment the text was formatted from. *)
Record SendCall : Type := mkCall {
  callAt : Z;
  callChat : string;
  callText : string;
  callParseMode : string;
  callFor : VisaAppointment
}.

Inductive LogLine : Type :=
| LogRateWait (delay : Q)                    (* console.log, line 106 *)
| LogSending (appointmentId : Z)             (* console.log, line 116 *)
| LogSent (appointmentId : Z)                (* console.log, line 124 *)
| LogSendError (appointmentId : Z) (error : JsError)  (* console.error, line 128 *)
| LogRequeued                                (* console.log, line 139 *)
| LogFormatSkip (appointmentId : Z).         (* console.error, line 146 *)

(** History of the settled send attempts (a ghost of the model). *)
Inductive Settled : Type :=
| Delivered (calledAt doneAt : Z) (a : VisaAppointment)
| Dropped (a : VisaAppointment)
| Requeued (a : VisaAppointment).

(** A suspended activation of [processQueue]: the [await] it waits at and
    the locals it still needs.  [calledAt] at [AwaitSend] is a ghost: the
    clock reading when [sendMessage] was called. *)
Inductive Task : Type :=
| AwaitRateDelay (appointment : VisaAppointment) (armedAt : Z) (delay : Q)  (* line 110 *)
| AwaitSend (appointment : VisaAppointment) (calledAt : Z)                   (* line 119 *)
| AwaitRetryPause (armedAt : Z) (delay : Z).                                 (* line 142 *)

Record State : Type := mkState {
  (* the fields of the class *)
  lastMessageSentAt : Z;
  messageQueue : list VisaAppointment;
  isProcessingQueue : bool;
  (* the surroundings *)
  clock : Z;                  (* what Date.now() returns in the current turn *)
  tasks : list Task;          (* suspended activations of processQueue *)
  calls : list SendCall;      (* sendMessage calls so far, oldest first *)
  console : list LogLine;     (* console output so far, oldest first *)
  outcomes : list Settled     (* settled attempts so far, oldest first *)
}.

Module Dispatcher.

Definition initial : State :=
  mkState 0 [] false 0 [] [] [] [].

Definition setLast (t : Z) (s : State) : State :=
  let '(mkState _ q f c ts cs co os) := s in mkState t q f c ts cs co os.
Definition setQueue (q : list VisaAppointment) (s : State) : State :=
  let '(mkState l _ f c ts cs co os) := s in mkState l q f c ts cs co os.
Definition setProcessing (b : bool) (s : State) : State :=
  let '(mkState l q _ c ts cs co os) := s in mkState l q b c ts cs co os.
Definition setClock (t : Z) (s : State) : State :=
  let '(mkState l q f _ ts cs co os) := s in mkState l q f t ts cs co os.
Definition setTasks (ts : list Task) (s : State) : State :=
  let '(mkState l q f c _ cs co os) := s in mkState l q f c ts cs co os.
Definition addCall (c : SendCall) (s : State) : State :=
  let '(mkState l q f k ts cs co os) := s in mkState l q f k ts (cs ++ [c]) co os.
Definition consoleWrite (line : LogLine) (s : State) : State :=
  let '(mkState l q f c ts cs co os) := s in mkState l q f c ts cs (co ++ [line]) os.
Definition record (o : Settled) (s : State) : State :=
  let '(mkState l q f c ts cs co os) := s in mkState l q f c ts cs co (os ++ [o]).

Section WithConfig.

Variable rt : Runtime.
Variable config : Config.

(** [if (config.app.debug) console.log(...)] *)
Definition debugLog (l : LogLine) (s : State) : State :=
  if debug config then consoleWrite l s else s.

(** [a < b] on numbers. *)
Definition ltb (a b : Q) : bool := negb (Qle_bool b a).

(** [(60 / config.telegram.rateLimit) * 1000], line 101.  Exact for every
    rate but zero, where JavaScript gives [Infinity], which the rationals do
    not have; what is proved about the length of the delay is proved for a
    positive rate. *)
Definition requiredDelay : Q := (60 / rateLimit config) * 1000.

(** Lines 113-121: format the appointment, call [sendMessage] and wait for
    the promise to settle. *)
Definition send (appointment : VisaAppointment) (s : State) : State * option Task :=
  let message := Formatter.formatMessage rt appointment in
  let s := debugLog (LogSending (id appointment)) s in
  let s := addCall (mkCall (clock s) (channelId config) message "HTML" appointment) s in
  (s, Some (AwaitSend appointment (clock s))).

(** Lines 95-111 and 150: one pass through the loop head, from the test of
    the [while] to the next [await], or to the end of [processQueue].  An
    appointment is an object, hence truthy, so [if (!appointment) continue]
    never fires on a non-empty queue. *)
Definition loop (s : State) : State * option Task :=
  match messageQueue s with
  | [] => (setProcessing false s, None)
  | appointment :: rest =>
      let s := setQueue rest s in
      let now := clock s in
      let timeSinceLastMessage := inject_Z (now - lastMessageSentAt s) in
      if ltb timeSinceLastMessage requiredDelay then
        let delay := requiredDelay - timeSinceLastMessage in
        let s := debugLog (LogRateWait delay) s in
        (s, Some (AwaitRateDelay appointment now delay))
      else send appointment s
  end.

(** [processQueue] from its entry, lines 93-94. *)
Definition processQueue (s : State) : State * option Task :=
  loop (setProcessing true s).

(** The decision of line 135: [true] when the event is to be retried. *)
Definition retriable (errorMessage : string) : bool :=
  negb (includes errorMessage "can't parse entities") &&
  negb (includes errorMessage "Bad Request").

(** [error instanceof Error ? error.message : String(error)], line 134. *)
Definition errorMessageOf (error : JsError) : string :=
  match error with
  | ErrorInstance m => m
  | ThrownValue str => str
  end.

(** What a settled [sendMessage] goes down as in the history. *)
Definition verdict (a : VisaAppointment) (calledAt t : Z) (r : SendResult) : Settled :=
  match r with
  | Resolved => Delivered calledAt t a
  | Rejected e => if retriable (errorMessageOf e) then Requeued a else Dropped a
  end.

(** Lines 122-148: what follows the [await] of [sendMessage]. *)
Definition afterSend (appointment : VisaAppointment) (calledAt : Z)
    (r : SendResult) (s : State) : State * option Task :=
  match r with
  | Resolved =>
      let s := debugLog (LogSent (id appointment)) s in
      let s := setLast (clock s) s in
      let s := record (Delivered calledAt (clock s) appointment) s in
      loop s
  | Rejected error =>
      let s := consoleWrite (LogSendError (id appointment) error) s in
      let errorMessage := errorMessageOf error in
      if retriable errorMessage then
        let s := setQueue (appointment :: messageQueue s) s in
        let s := debugLog LogRequeued s in
        let s := record (Requeued appointment) s in
        (s, Some (AwaitRetryPause (clock s) (retryAfter config)))
      else
        let s := consoleWrite (LogFormatSkip (id appointment)) s in
        let s := record (Dropped appointment) s in
        loop s
  end.

(** Lines 143 and 150: [break], then the flag is cleared. *)
Definition afterRetryPause (s : State) : State * option Task :=
  (setProcessing false s, None).

(** The activation at index [i] goes on as [r] says: suspended again, or
    finished and gone. *)
Definition park (i : nat) (r : State * option Task) : State :=
  let (s, next) := r in
  setTasks (firstn i (tasks s) ++
            match next with Some t => [t] | None => [] end ++
            skipn (S i) (tasks s)) s.

(** [sendNotification], lines 85-91.  [void this.processQueue()] runs the
    new activation up to its first [await] before the call returns. *)
Definition sendNotification (appointment : VisaAppointment) (s : State) : bool * State :=
  let s := setQueue (messageQueue s ++ [appointment]) s in
  let s := if negb (isProcessingQueue s)
           then park (List.length (tasks s)) (processQueue s)
           else s in
  (true, s).

(** What the single JavaScript thread is handed, one turn at a time; [at_]
    is the clock reading during the turn. *)
Inductive Event : Type :=
| Notify (at_ : Z) (appointment : VisaAppointment)   (* a producer calls sendNotification *)
| TimerFires (at_ : Z) (i : nat)                     (* the setTimeout of activation i *)
| SendSettles (at_ : Z) (i : nat) (r : SendResult).  (* the sendMessage of activation i *)

Definition eventTime (ev : Event) : Z :=
  match ev with
  | Notify t _ => t
  | TimerFires t _ => t
  | SendSettles t _ _ => t
  end.

Definition step (s : State) (ev : Event) : option State :=
  match ev with
  | Notify t appointment =>
      Some (snd (sendNotification appointment (setClock t s)))
  | TimerFires t i =>
      match nth_error (tasks s) i with
      | Some (AwaitRateDelay appointment _ _) =>
          Some (park i (send appointment (setClock t s)))
      | Some (AwaitRetryPause _ _) =>
          Some (park i (afterRetryPause (setClock t s)))
      | _ => None
      end
  | SendSettles t i r =>
      match nth_error (tasks s) i with
      | Some (AwaitSend appointment calledAt) =>
          Some (park i (afterSend appointment calledAt r (setClock t s)))
      | _ => None
      end
  end.

Fixpoint run (s : State) (evs : list Event) : option State :=
  match evs with
  | [] => Some s
  | ev :: rest =>
      match step s ev with
      | Some s' => run s' rest
      | None => None
      end
  end.

(** The clock does not go back, and a timer does not fire before its
    delay has passed. *)
Definition timely (s : State) (ev : Event) : bool :=
  (clock s <=? eventTime ev)%Z &&
  match ev with
  | TimerFires t i =>
      match nth_error (tasks s) i with
      | Some (AwaitRateDelay _ armedAt delay) =>
          Qle_bool (inject_Z armedAt + delay) (inject_Z t)
      | Some (AwaitRetryPause armedAt delay) => (armedAt + delay <=? t)%Z
      | _ => true
      end
  | _ => true
  end.

Fixpoint wellTimed (s : State) (evs : list Event) : bool :=
  match evs with
  | [] => true
  | ev :: rest =>
      timely s ev &&
      match step s ev with
      | Some s' => wellTimed s' rest
      | None => false
      end
  end.

End WithConfig.

Arguments requiredDelay : simpl never.
Arguments retriable : simpl never.
Arguments ltb : simpl never.

(** *** Schedules *)

(** No [sendMessage] of the schedule is rejected. *)
Definition noFailure (evs : list Event) : bool :=
  forallb (fun ev => match ev with
                     | SendSettles _ _ (Rejected _) => false
                     | _ => true
                     end) evs.

(** No [sendMessage] of the schedule is rejected with an error that line
    135 takes for a transient one. *)
Definition noTransient (evs : list Event) : bool :=
  forallb (fun ev => match ev with
                     | SendSettles _ _ (Rejected e) => negb (retriable (errorMessageOf e))
                     | _ => true
                     end) evs.

(** The appointments handed to [sendNotification] by a schedule. *)
Fixpoint notified (evs : list Event) : list VisaAppointment :=
  match evs with
  | [] => []
  | Notify _ a :: rest => a :: notified rest
  | _ :: rest => notified rest
  end.

(** The appointment an activation has popped and not yet passed to
    [sendMessage]. *)
Definition waiting (t : Task) : list VisaAppointment :=
  match t with
  | AwaitRateDelay a _ _ => [a]
  | _ => []
  end.

(** The appointment whose [sendMessage] is in flight. *)
Definition inFlight (t : Task) : list VisaAppointment :=
  match t with
  | AwaitSend a _ => [a]
  | _ => []
  end.

Definition held (s : State) : list VisaAppointment := flat_map waiting (tasks s).
Definition flying (s : State) : list VisaAppointment := flat_map inFlight (tasks s).

(** The appointments whose attempt ended for good: delivered or dropped. *)
Fixpoint finishedOf (os : list Settled) : list VisaAppointment :=
  match os with
  | [] => []
  | Delivered _ _ a :: rest => a :: finishedOf rest
  | Dropped a :: rest => a :: finishedOf rest
  | Requeued _ :: rest => finishedOf rest
  end.

Fixpoint deliveredOf (os : list Settled) : list VisaAppointment :=
  match os with
  | [] => []
  | Delivered _ _ a :: rest => a :: deliveredOf rest
  | _ :: rest => deliveredOf rest
  end.

(** The successful sends, oldest first: when [sendMessage] was called and
    when [lastMessageSentAt] was set after it. *)
Fixpoint deliveries (os : list Settled) : list (Z * Z) :=
  match os with
  | [] => []
  | Delivered calledAt doneAt _ :: rest => (calledAt, doneAt) :: deliveries rest
  | _ :: rest => deliveries rest
  end.

(** When the latest successful send ended. *)
Fixpoint lastDone (l : list (Z * Z)) : option Z :=
  match l with
  | [] => None
  | (_, d) :: rest =>
      match lastDone rest with
      | Some d' => Some d'
      | None => Some d
      end
  end.

(** Each send ends no earlier than it starts, and starts at least [gap]
    after the send before it ended. *)
Fixpoint spaced (gap : Q) (l : list (Z * Z)) : Prop :=
  match l with
  | [] => True
  | (c1, d1) :: rest =>
      (c1 <= d1)%Z /\
      match rest with
      | [] => True
      | (c2, _) :: _ => gap <= inject_Z c2 - inject_Z d1
      end /\
      spaced gap rest
  end.

(** *** Invariants *)

(** At most one activation of [processQueue] exists, and
    [isProcessingQueue] tells whether one does. *)
Definition singleConsumer (s : State) : Prop :=
  match tasks s with
  | [] => isProcessingQueue s = false
  | [_] => isProcessingQueue s = true
  | _ => False
  end.

Definition isRetryPause (t : Task) : bool :=
  match t with
  | AwaitRetryPause _ _ => true
  | _ => false
  end.

(** The bookkeeping of a run without transient failures, against the
    appointments [enq] handed in so far. *)
Definition orderInv (rt : Runtime) (config : Config)
    (enq : list VisaAppointment) (s : State) : Prop :=
  singleConsumer s /\
  (map callFor (calls s) ++ held s ++ messageQueue s)%list = enq /\
  (finishedOf (outcomes s) ++ flying s)%list = map callFor (calls s) /\
  (tasks s = [] -> messageQueue s = []) /\
  existsb isRetryPause (tasks s) = false /\
  Forall (fun c => callText c = Formatter.formatMessage rt (callFor c) /\
                   callChat c = channelId config /\
                   callParseMode c = "HTML") (calls s).

(** What the rate limiter maintains. *)
Definition rateInv (config : Config) (s : State) : Prop :=
  singleConsumer s /\
  spaced (requiredDelay config) (deliveries (outcomes s)) /\
  (forall d, lastDone (deliveries (outcomes s)) = Some d ->
             d = lastMessageSentAt s) /\
  Forall (fun t =>
            match t with
            | AwaitRateDelay _ armedAt delay =>
                inject_Z (lastMessageSentAt s) + requiredDelay config
                  <= inject_Z armedAt + delay
            | AwaitSend _ calledAt =>
                inject_Z (lastMessageSentAt s) + requiredDelay config
                  <= inject_Z calledAt /\
                (calledAt <= clock s)%Z
            | AwaitRetryPause _ _ => True
            end) (tasks s).

(** The general bookkeeping, transient failures included: nothing handed
    in is lost or reordered. *)
Definition pendingInv (enq : list VisaAppointment) (s : State) : Prop :=
  singleConsumer s /\
  (finishedOf (outcomes s) ++ held s ++ flying s ++ messageQueue s)%list = enq.

(** The appointment a settled attempt was for. *)
Definition attempted (o : Settled) : VisaAppointment :=
  match o with
  | Delivered _ _ a => a
  | Dropped a => a
  | Requeued a => a
  end.

(** Every call went out as line 119 writes it, and the calls are, one for
    one and in order, the settled attempts followed by the one in flight. *)
Definition callsInv (rt : Runtime) (config : Config) (s : State) : Prop :=
  singleConsumer s /\
  map callFor (calls s) = (map attempted (outcomes s) ++ flying s)%list /\
  Forall (fun c => callText c = Formatter.formatMessage rt (callFor c) /\
                   callChat c = channelId config /\
                   callParseMode c = "HTML") (calls s).

(** The latest settled attempt was requeued, and its appointment heads the
    queue. *)
Definition backlogHead (s : State) : Prop :=
  exists os a rest,
    outcomes s = (os ++ [Requeued a])%list /\ messageQueue s = a :: rest.

(** Without an activation the queue is empty or headed by the appointment
    that just failed; during the retry pause it is so headed. *)
Definition stallInv (s : State) : Prop :=
  singleConsumer s /\
  match tasks s with
  | [] => messageQueue s = [] \/ backlogHead s
  | [AwaitRetryPause _ _] => backlogHead s
  | _ => True
  end.

(** What the rate-limit timer is armed with. *)
Definition delayInv (config : Config) (s : State) : Prop :=
  singleConsumer s /\
  (lastMessageSentAt s <= clock s)%Z /\
  Forall (fun t =>
            match t with
            | AwaitRateDelay _ armedAt delay =>
                0 < delay /\ delay <= requiredDelay config /\
                inject_Z armedAt + delay ==
                  inject_Z (lastMessageSentAt s) + requiredDelay config
            | _ => True
            end) (tasks s).

(** The clock does not go back along a schedule (and the schedule can be
    run); nothing is asked of the timers. *)
Fixpoint clockNeverBack (rt : Runtime) (config : Config) (s : State)
    (evs : list Event) : bool :=
  match evs with
  | [] => true
  | ev :: rest =>
      (clock s <=? eventTime ev)%Z &&
      match step rt config s ev with
      | Some s' => clockNeverBack rt config s' rest
      | None => false
      end
  end.

(** A state without its console output. *)
Definition mute (s : State) : State :=
  let '(mkState l q f c ts cs _ os) := s in mkState l q f c ts cs [] os.

(** Two configurations that differ at most in the debug flag (and in the
    token, which the service only hands to the bot client). *)
Definition sameButDebug (c1 c2 : Config) : Prop :=
  channelId c1 = channelId c2 /\
  rateLimit c1 = rateLimit c2 /\
  retryAfter c1 = retryAfter c2.

End Dispatcher.

(** ** Concrete surroundings for the examples *)

Module Samples.

(** [toUpperCase] on ASCII text: [a]-[z] become [A]-[Z]. *)
Definition upperChar (c : ascii) : ascii :=
  let n := nat_of_ascii c in
  if ((97 <=? n) && (n <=? 122))%nat then ascii_of_nat (n - 32) else c.

Fixpoint asciiUpper (s : string) : string :=
  match s with
  | EmptyString => EmptyString
  | String c rest => String (upperChar c) (asciiUpper rest)
  end.

(** A runtime for ASCII country codes whose date rendering is left as the
    stored text. *)
Definition runtime : Runtime := mkRuntime asciiUpper (fun x => x).

(** 60 messages per minute, five seconds of pause after a failed send. *)
Definition settings : Config := mkConfig "token" "@channel" 60 5000 false.

Definition blank : VisaAppointment :=
  mkAppointment 1 "open" None "tur" "nld" None (Some EmptyString) None None
                "2024-05-01T10:00:00Z".

Definition emptyCenter : VisaAppointment :=
  mkAppointment 3 "open" (Some EmptyString) "tur" "nld" (Some "Tourism")
                (Some "Short") (Some "2024-06-01") (Some 1%Z)
                "2024-05-01T10:00:00Z".

Definition ampersand : VisaAppointment :=
  mkAppointment 2 "open" (Some "A&B <Centre>") "a&b" "nld" (Some "Tourism")
                (Some "Short 'C'") (Some "2024-06-01") (Some 3%Z)
                "2024-05-01T10:00:00Z".

Definition E : VisaAppointment :=
  mkAppointment 10 "open" (Some "Ankara") "tur" "nld" None None None None "t0".
Definition F : VisaAppointment :=
  mkAppointment 11 "waitlist_open" (Some "Izmir") "tur" "deu" None None None None "t1".
Definition G : VisaAppointment :=
  mkAppointment 12 "closed" (Some "Bursa") "tur" "fra" None None None None "t2".

Definition timeout : JsError := ErrorInstance "ETIMEDOUT".
Definition badRequest : JsError :=
  ErrorInstance "400: Bad Request: can't parse entities".

(** The state a schedule leads to from the start. *)
Definition after (evs : list Dispatcher.Event) : State :=
  match Dispatcher.run runtime settings Dispatcher.initial evs with
  | Some s => s
  | None => Dispatcher.initial
  end.

(** Two appointments, both delivered, the second after the rate-limit
    delay of one second. *)
Definition twoDelivered : list Dispatcher.Event :=
  [Dispatcher.Notify 1000 E; Dispatcher.Notify 1001 F;
   Dispatcher.SendSettles 1100 0 Resolved; Dispatcher.TimerFires 2100 0;
   Dispatcher.SendSettles 2200 0 Resolved].

(** [E] is being sent while [F] and [G] wait in the queue. *)
Definition sendingE : list Dispatcher.Event :=
  [Dispatcher.Notify 1000 E; Dispatcher.Notify 1001 F; Dispatcher.Notify 1002 G].

(** [E] failed with a timeout, and the pause after it is over. *)
Definition stoppedAfterTimeout : list Dispatcher.Event :=
  [Dispatcher.Notify 1000 E; Dispatcher.Notify 1001 F;
   Dispatcher.SendSettles 1100 0 (Rejected timeout);
   Dispatcher.TimerFires 6100 0].

(** [E] times out, is taken up again by the pass that [F] starts, and is
    then rejected as a bad request. *)
Definition timeoutThenBadRequest : list Dispatcher.Event :=
  [Dispatcher.Notify 1000 E;
   Dispatcher.SendSettles 1100 0 (Rejected timeout);
   Dispatcher.TimerFires 6100 0;
   Dispatcher.Notify 7000 F;
   Dispatcher.SendSettles 7100 0 (Rejected badRequest)].

(** [E] is sent and delivered, and [F] waits for the rate-limit delay. *)
Definition waitingF : list Dispatcher.Event :=
  [Dispatcher.Notify 1000 E; Dispatcher.Notify 1001 F;
   Dispatcher.SendSettles 1100 0 Resolved].

(** A rejection the client reports as an [Error], and a bare string thrown
    in its place. *)
Definition chatNotFound : JsError :=
  ErrorInstance "400: Bad Request: chat not found".
Definition thrownBadRequest : JsError := ThrownValue "Bad Request".
Definition thrownTimeout : JsError := ThrownValue "socket hang up".

(** [E] is delivered and [F], its delay over, is being sent. *)
Definition sendingF : list Dispatcher.Event :=
  [Dispatcher.Notify 1000 E; Dispatcher.Notify 1001 F;
   Dispatcher.SendSettles 1100 0 Resolved; Dispatcher.TimerFires 2100 0].

(** As [waitingF], and then [G] comes in; the clock never goes back. *)
Definition waitingFThenG : list Dispatcher.Event :=
  [Dispatcher.Notify 1000 E; Dispatcher.Notify 1001 F;
   Dispatcher.SendSettles 1100 0 Resolved; Dispatcher.Notify 1500 G].

(** The settings with the debug output switched on. *)
Definition verbose : Config := mkConfig "token" "@channel" 60 5000 true.

End Samples.

Arguments Formatter.formatMessage : simpl never.

(** * Properties of the formatter *)

Section FormatterFacts.

Import Formatter.

Lemma append_assoc (a b c : string) : (a ++ b) ++ c = a ++ (b ++ c).
Proof. induction a; simpl; congruence. Qed.

Lemma replaceAll_app (c : ascii) (r a b : string) :
  replaceAll c r (a ++ b) = replaceAll c r a ++ replaceAll c r b.
Proof.
  induction a as [|x a IH]; simpl; [reflexivity|].
  destruct (Ascii.eqb x c); simpl; rewrite IH; [|reflexivity].
  now rewrite append_assoc.
Qed.

Lemma replaceAll_hit (c x : ascii) (r s : string) :
  Ascii.eqb x c = true -> replaceAll c r (String x s) = r ++ replaceAll c r s.
Proof. intros H; simpl; now rewrite H. Qed.

Lemma replaceAll_miss (c x : ascii) (r s : string) :
  Ascii.eqb x c = false ->
  replaceAll c r (String x s) = String x (replaceAll c r s).
Proof. intros H; simpl; now rewrite H. Qed.

Lemma fiveReplacements_cons (x : ascii) (s : string) :
  fiveReplacements (String x s) = escapeChar x ++ fiveReplacements s.
Proof.
  unfold fiveReplacements, escapeChar.
  destruct (Ascii.eqb x "&") eqn:E1.
  { rewrite (replaceAll_hit _ _ _ _ E1), !replaceAll_app. reflexivity. }
  rewrite (replaceAll_miss _ _ _ _ E1).
  destruct (Ascii.eqb x "<") eqn:E2.
  { rewrite (replaceAll_hit _ _ _ _ E2), !replaceAll_app. reflexivity. }
  rewrite (replaceAll_miss _ _ _ _ E2).
  destruct (Ascii.eqb x ">") eqn:E3.
  { rewrite (replaceAll_hit _ _ _ _ E3), !replaceAll_app. reflexivity. }
  rewrite (replaceAll_miss _ _ _ _ E3).
  destruct (Ascii.eqb x dquote) eqn:E4.
  { rewrite (replaceAll_hit _ _ _ _ E4), !replaceAll_app. reflexivity. }
  rewrite (replaceAll_miss _ _ _ _ E4).
  destruct (Ascii.eqb x "'") eqn:E5.
  { rewrite (replaceAll_hit _ _ _ _ E5). reflexivity. }
  rewrite (replaceAll_miss _ _ _ _ E5). reflexivity.
Qed.

Lemma fiveReplacements_spec (s : string) : fiveReplacements s = escapeSpec s.
Proof.
  induction s as [|x s IH]; [reflexivity|].
  rewrite fiveReplacements_cons, IH. reflexivity.
Qed.

(** The chained replacements of [escapeHtml] are the character-wise
    escaping: the order of the chain (first [&]) keeps the entities already
    written from being escaped again. *)
Lemma escapeHtml_spec (s : string) : escapeHtml (Some s) = escapeSpec s.
Proof.
  destruct s as [|c s]; [reflexivity|].
  exact (fiveReplacements_spec (String c s)).
Qed.

Lemma escapeHtml_missing (x : option string) :
  truthy x = false -> escapeHtml x = EmptyString.
Proof. destruct x as [[|c s]|]; simpl; congruence. Qed.

Lemma prefix_empty (s : string) : String.prefix EmptyString s = true.
Proof. now destruct s. Qed.

Lemma onlyEscaped_escapeSpec (s : string) : onlyEscaped (escapeSpec s) = true.
Proof.
  induction s as [|x s IH]; [reflexivity|].
  simpl. unfold escapeChar.
  destruct (Ascii.eqb x "&") eqn:E1;
    [simpl; unfold startsEntity; simpl; rewrite prefix_empty; exact IH|].
  destruct (Ascii.eqb x "<") eqn:E2;
    [simpl; unfold startsEntity; simpl; rewrite prefix_empty; exact IH|].
  destruct (Ascii.eqb x ">") eqn:E3;
    [simpl; unfold startsEntity; simpl; rewrite prefix_empty; exact IH|].
  destruct (Ascii.eqb x dquote) eqn:E4;
    [simpl; unfold startsEntity; simpl; rewrite prefix_empty; exact IH|].
  destruct (Ascii.eqb x "'") eqn:E5;
    [simpl; unfold startsEntity; simpl; rewrite prefix_empty; exact IH|].
  simpl. unfold isMarkup. rewrite E1, E2, E3, E4, E5. simpl. exact IH.
Qed.

Lemma prefix_app (x q : string) : String.prefix x (x ++ q) = true.
Proof.
  induction x as [|c x IH]; simpl; [now destruct q|].
  destruct (ascii_dec c c); [exact IH|congruence].
Qed.

Lemma includes_prefix (s needle : string) :
  String.prefix needle s = true -> includes s needle = true.
Proof. intros H. destruct s; cbn [includes]; rewrite H; reflexivity. Qed.

Lemma hasMarkup_uint (d : Decimal.uint) :
  hasMarkup (NilEmpty.string_of_uint d) = false.
Proof. induction d; simpl; try reflexivity; exact IHd. Qed.

Lemma hasMarkup_numberToString (n : Z) : hasMarkup (numberToString n) = false.
Proof.
  unfold numberToString, NilZero.string_of_int, NilZero.string_of_uint.
  destruct (Z.to_int n) as [d|d]; destruct d; simpl; try reflexivity;
    apply hasMarkup_uint.
Qed.

Lemma onlyEscaped_clean (s : string) : hasMarkup s = false -> onlyEscaped s = true.
Proof.
  induction s as [|c s IH]; simpl; [reflexivity|].
  intros H. apply orb_false_iff in H as [Hc Hs].
  assert (Hamp : Ascii.eqb c "&" = false).
  { unfold isMarkup in Hc. destruct (Ascii.eqb c "&"); [discriminate|reflexivity]. }
  rewrite Hamp, Hc. simpl. exact (IH Hs).
Qed.

Lemma onlyEscaped_escapeHtml (x : option string) : onlyEscaped (escapeHtml x) = true.
Proof.
  destruct x as [s|]; [|reflexivity].
  rewrite escapeHtml_spec. apply onlyEscaped_escapeSpec.
Qed.

Lemma countChar_app (c : ascii) (a b : string) :
  countChar c (a ++ b) = (countChar c a + countChar c b)%nat.
Proof. induction a as [|x a IH]; simpl; [reflexivity|]. rewrite IH. lia. Qed.

(** A text that shows markup in escaped form only holds none of [<], [>],
    the double quote and the apostrophe. *)
Lemma countChar_onlyEscaped (c : ascii) (s : string) :
  isMarkup c = true -> Ascii.eqb c "&" = false ->
  onlyEscaped s = true -> countChar c s = 0%nat.
Proof.
  intros Hc Hamp. induction s as [|x s IH]; simpl; [reflexivity|].
  destruct (Ascii.eqb x "&") eqn:Ex.
  - intros H. apply andb_prop in H as [_ H].
    apply Ascii.eqb_eq in Ex. subst x.
    rewrite Ascii.eqb_sym, Hamp. simpl. exact (IH H).
  - intros H. apply andb_prop in H as [Hx H]. apply negb_true_iff in Hx.
    destruct (Ascii.eqb x c) eqn:Exc.
    + apply Ascii.eqb_eq in Exc. subst x. congruence.
    + simpl. exact (IH H).
Qed.

Lemma prefix_app_r (p s b : string) :
  String.prefix p s = true -> String.prefix p (s ++ b) = true.
Proof.
  revert s. induction p as [|c p IH]; intros s H; [apply prefix_empty|].
  destruct s as [|x s]; simpl in *; [discriminate|].
  destruct (ascii_dec c x); [now apply IH|discriminate].
Qed.

Lemma startsEntity_app (s b : string) :
  startsEntity s = true -> startsEntity (s ++ b) = true.
Proof.
  unfold startsEntity. intros H. rewrite !orb_true_iff in H.
  destruct H as [[[[H|H]|H]|H]|H]; rewrite (prefix_app_r _ _ b H);
    rewrite ?orb_true_r; reflexivity.
Qed.

Lemma ampsEscaped_app (a b : string) :
  ampsEscaped a = true -> ampsEscaped b = true -> ampsEscaped (a ++ b) = true.
Proof.
  intros Ha Hb. induction a as [|c a IH]; [exact Hb|].
  cbn [append ampsEscaped] in *. apply andb_prop in Ha as [Hc Ha].
  rewrite (IH Ha), andb_true_r.
  destruct (Ascii.eqb c "&"); [|reflexivity].
  exact (startsEntity_app (String c a) b Hc).
Qed.

Lemma ampsEscaped_onlyEscaped (s : string) :
  onlyEscaped s = true -> ampsEscaped s = true.
Proof.
  induction s as [|c s IH]; [reflexivity|]. cbn [onlyEscaped ampsEscaped].
  destruct (Ascii.eqb c "&"); intros H; apply andb_prop in H as [Hc H];
    rewrite (IH H); [now rewrite Hc|reflexivity].
Qed.

Lemma onlyEscaped_statusEmoji (a : VisaAppointment) :
  onlyEscaped (statusEmoji a) = true.
Proof.
  unfold statusEmoji.
  destruct (String.eqb (status a) "open"); [reflexivity|].
  destruct (String.eqb (status a) "waitlist_open"); reflexivity.
Qed.

End FormatterFacts.

Section FormatterClaims.

Import Formatter.

Lemma includes_skip (p s x : string) :
  includes s x = true -> includes (p ++ s) x = true.
Proof.
  intros H. induction p as [|c p IH]; [exact H|].
  cbn [append includes]. rewrite IH. apply orb_true_r.
Qed.

Lemma includes_line (l x e q : string) :
  includes (l ++ x ++ e ++ q) (l ++ x ++ e) = true.
Proof.
  rewrite <- (append_assoc x e q), <- (append_assoc l (x ++ e) q).
  apply includes_prefix, prefix_app.
Qed.

Lemma includes_line2 (l x m y e q : string) :
  includes (l ++ x ++ m ++ y ++ e ++ q) (l ++ x ++ m ++ y ++ e) = true.
Proof.
  rewrite <- (append_assoc y e q), <- (append_assoc m (y ++ e) q),
          <- (append_assoc x (m ++ y ++ e) q),
          <- (append_assoc l (x ++ m ++ y ++ e) q).
  apply includes_prefix, prefix_app.
Qed.

Ltac find_line :=
  unfold formatMessage;
  repeat first [ apply includes_line | apply includes_line2 | apply includes_skip ].

Lemma orElse_missing (x : option string) (dflt : string) :
  truthy x = false -> orElse x dflt = dflt.
Proof. destruct x as [[|c s]|]; simpl; congruence. Qed.

Lemma centerText_spec (a : VisaAppointment) :
  centerText a = escapeSpec (orElse (center a) EmptyString).
Proof.
  unfold centerText. destruct (center a) as [[|c s]|]; try reflexivity.
  apply (escapeHtml_spec (String c s)).
Qed.

(** The whole message, written out: the fixed text of the template, and
    between it the character-wise escaped values, the status icon and the
    counter. *)
Lemma formatMessage_decomposition (rt : Runtime) (a : VisaAppointment) :
  formatMessage rt a =
  "<b>" ++ statusEmoji a ++ " YENİ RANDEVU DURUMU</b>" ++ nl ++
  nl ++
  "🏢 <b>Merkez:</b> " ++ escapeSpec (orElse (center a) EmptyString) ++ nl ++
  "🌍 <b>Ülke/Misyon:</b> " ++ escapeSpec (toUpperCase rt (country_code a))
    ++ " → " ++ escapeSpec (toUpperCase rt (mission_code a)) ++ nl ++
  "🛂 <b>Kategori:</b> " ++ escapeSpec (orElse (visa_category a) placeholder) ++ nl ++
  "📄 <b>Tip:</b> " ++ escapeSpec (orElse (visa_type a) placeholder) ++ nl ++
  "🚦 <b>Durum:</b> " ++ statusEmoji a ++ " " ++ escapeSpec (statusText a) ++ nl ++
  "🗓️ <b>Son Müsait Tarih:</b> "
    ++ escapeSpec (orElse (last_available_date a) placeholder) ++ nl ++
  "📊 <b>Takip Sayısı:</b> " ++ numberToString (countOrZero (tracking_count a)) ++ nl ++
  "⏰ <b>Son Kontrol:</b> "
    ++ escapeSpec (toLocaleString_trTR rt (last_checked_at a)) ++ nl ++
  nl ++
  "<i>Bu randevu otomatik olarak tespit edilmiştir.</i>".
Proof.
  unfold formatMessage. rewrite centerText_spec.
  unfold countryText, missionText, categoryText, typeText, dateText,
         lastCheckedText, trackingText.
  rewrite !escapeHtml_spec. reflexivity.
Qed.

Lemma countChar_escapeSpec (c : ascii) (s : string) :
  isMarkup c = true -> Ascii.eqb c "&" = false ->
  countChar c (escapeSpec s) = 0%nat.
Proof.
  intros Hc Hamp.
  exact (countChar_onlyEscaped c _ Hc Hamp (onlyEscaped_escapeSpec s)).
Qed.

Lemma countChar_statusEmoji (c : ascii) (a : VisaAppointment) :
  isMarkup c = true -> Ascii.eqb c "&" = false ->
  countChar c (statusEmoji a) = 0%nat.
Proof.
  intros Hc Hamp.
  exact (countChar_onlyEscaped c _ Hc Hamp (onlyEscaped_statusEmoji a)).
Qed.

Lemma countChar_numberToString (c : ascii) (n : Z) :
  isMarkup c = true -> Ascii.eqb c "&" = false ->
  countChar c (numberToString n) = 0%nat.
Proof.
  intros Hc Hamp.
  exact (countChar_onlyEscaped c _ Hc Hamp
           (onlyEscaped_clean _ (hasMarkup_numberToString n))).
Qed.

Ltac count_pieces c :=
  rewrite formatMessage_decomposition, !countChar_app;
  rewrite !(countChar_escapeSpec c _ eq_refl eq_refl),
          !(countChar_statusEmoji c _ eq_refl eq_refl),
          !(countChar_numberToString c _ eq_refl eq_refl);
  reflexivity.

(** The raw markup of a message is that of the template and nothing else:
    whatever the appointment holds, the message has the 20 [<] and the 20 [>]
    of the template's tags, no double quote and no apostrophe, and each of its
    [&] opens an entity. *)
Lemma message_markup (rt : Runtime) (a : VisaAppointment) :
  countChar "<" (formatMessage rt a) = 20%nat /\
  countChar ">" (formatMessage rt a) = 20%nat /\
  countChar dquote (formatMessage rt a) = 0%nat /\
  countChar "'" (formatMessage rt a) = 0%nat /\
  ampsEscaped (formatMessage rt a) = true.
Proof.
  split; [count_pieces "<"%char|]. split; [count_pieces ">"%char|].
  split; [count_pieces dquote|]. split; [count_pieces "'"%char|].
  rewrite formatMessage_decomposition.
  repeat (apply ampsEscaped_app;
          [ first [ reflexivity
                  | apply ampsEscaped_onlyEscaped;
                    first [ apply onlyEscaped_escapeSpec
                          | apply onlyEscaped_statusEmoji
                          | apply onlyEscaped_clean, hasMarkup_numberToString ] ]
          | ]).
  reflexivity.
Qed.

(** C8, as amended.  In the message, the centre name, the visa category, the
    visa type and the last available date (the value itself when present and
    non-empty) stand with every markup character replaced by its entity and
    every other character unaltered; the country and mission codes are first
    put in upper case and then escaped in the same way.  The escaped text
    shows markup characters in escaped form only.  The message is the fixed
    text of the template with these escaped values, the status icon and the
    counter in its slots and nothing more, so that no value occurs in it
    unescaped: its raw [<], [>], double quotes and apostrophes are those of
    the template, and each of its [&] opens an entity. *)
Theorem escaping_of_free_text (rt : Runtime) (a : VisaAppointment) :
  let msg := formatMessage rt a in
  (centerText a = escapeSpec (orElse (center a) EmptyString) /\
   categoryText a = escapeSpec (orElse (visa_category a) placeholder) /\
   typeText a = escapeSpec (orElse (visa_type a) placeholder) /\
   dateText a = escapeSpec (orElse (last_available_date a) placeholder) /\
   countryText rt a = escapeSpec (toUpperCase rt (country_code a)) /\
   missionText rt a = escapeSpec (toUpperCase rt (mission_code a))) /\
  (includes msg ("🏢 <b>Merkez:</b> " ++ centerText a ++ nl) = true /\
   includes msg ("🛂 <b>Kategori:</b> " ++ categoryText a ++ nl) = true /\
   includes msg ("📄 <b>Tip:</b> " ++ typeText a ++ nl) = true /\
   includes msg ("🗓️ <b>Son Müsait Tarih:</b> " ++ dateText a ++ nl) = true /\
   includes msg ("🌍 <b>Ülke/Misyon:</b> " ++ countryText rt a ++ " → "
                 ++ missionText rt a ++ nl) = true) /\
  (forall v : string, onlyEscaped (escapeSpec v) = true) /\
  msg =
    "<b>" ++ statusEmoji a ++ " YENİ RANDEVU DURUMU</b>" ++ nl ++
    nl ++
    "🏢 <b>Merkez:</b> " ++ escapeSpec (orElse (center a) EmptyString) ++ nl ++
    "🌍 <b>Ülke/Misyon:</b> " ++ escapeSpec (toUpperCase rt (country_code a))
      ++ " → " ++ escapeSpec (toUpperCase rt (mission_code a)) ++ nl ++
    "🛂 <b>Kategori:</b> " ++ escapeSpec (orElse (visa_category a) placeholder) ++ nl ++
    "📄 <b>Tip:</b> " ++ escapeSpec (orElse (visa_type a) placeholder) ++ nl ++
    "🚦 <b>Durum:</b> " ++ statusEmoji a ++ " " ++ escapeSpec (statusText a) ++ nl ++
    "🗓️ <b>Son Müsait Tarih:</b> "
      ++ escapeSpec (orElse (last_available_date a) placeholder) ++ nl ++
    "📊 <b>Takip Sayısı:</b> " ++ numberToString (countOrZero (tracking_count a)) ++ nl ++
    "⏰ <b>Son Kontrol:</b> "
      ++ escapeSpec (toLocaleString_trTR rt (last_checked_at a)) ++ nl ++
    nl ++
    "<i>Bu randevu otomatik olarak tespit edilmiştir.</i>" /\
  (countChar "<" msg = 20%nat /\
   countChar ">" msg = 20%nat /\
   countChar dquote msg = 0%nat /\
   countChar "'" msg = 0%nat /\
   ampsEscaped msg = true).
Proof.
  cbv zeta. split; [|split; [|split; [|split]]].
  - split; [apply centerText_spec|].
    unfold categoryText, typeText, dateText, countryText, missionText.
    rewrite !escapeHtml_spec. repeat split.
  - repeat split; find_line.
  - exact onlyEscaped_escapeSpec.
  - apply formatMessage_decomposition.
  - apply message_markup.
Qed.

(** C8 as stated fails for the country code: [a&b] is shown as [A&amp;B],
    so the message holds no character-for-character escaped copy of the
    field. *)
Lemma country_code_is_upper_cased :
  countryText Samples.runtime Samples.ampersand
    <> escapeSpec (country_code Samples.ampersand) /\
  includes (formatMessage Samples.runtime Samples.ampersand)
           (escapeSpec (country_code Samples.ampersand)) = false /\
  escapeSpec (country_code Samples.ampersand) = "a&amp;b" /\
  countryText Samples.runtime Samples.ampersand = "A&amp;B".
Proof.
  split; [vm_compute; discriminate|].
  repeat split; vm_compute; reflexivity.
Qed.

(** C9, as amended.  A visa category, visa type or last available date that
    is absent or empty is shown as the placeholder [Belirtilmemiş]; an absent
    or empty centre name is shown as the empty text; [formatMessage] is a
    total function, and the four lines are in its result. *)
Theorem missing_fields_rendering (rt : Runtime) (a : VisaAppointment) :
  (truthy (visa_category a) = false -> categoryText a = placeholder) /\
  (truthy (visa_type a) = false -> typeText a = placeholder) /\
  (truthy (last_available_date a) = false -> dateText a = placeholder) /\
  (truthy (center a) = false -> centerText a = EmptyString) /\
  placeholder <> EmptyString /\
  exists msg : string,
    formatMessage rt a = msg /\
    includes msg ("🏢 <b>Merkez:</b> " ++ centerText a ++ nl) = true /\
    includes msg ("🛂 <b>Kategori:</b> " ++ categoryText a ++ nl) = true /\
    includes msg ("📄 <b>Tip:</b> " ++ typeText a ++ nl) = true /\
    includes msg ("🗓️ <b>Son Müsait Tarih:</b> " ++ dateText a ++ nl) = true.
Proof.
  unfold categoryText, typeText, dateText, centerText.
  repeat split.
  - intros H. now rewrite (orElse_missing _ _ H).
  - intros H. now rewrite (orElse_missing _ _ H).
  - intros H. now rewrite (orElse_missing _ _ H).
  - apply escapeHtml_missing.
  - discriminate.
  - exists (formatMessage rt a). split; [reflexivity|].
    repeat split; find_line.
Qed.

Lemma missing_fields_rendering_witness :
  categoryText Samples.blank = placeholder /\
  typeText Samples.blank = placeholder /\
  dateText Samples.blank = placeholder /\
  centerText Samples.blank = EmptyString.
Proof.
  destruct (missing_fields_rendering Samples.runtime Samples.blank)
    as (Hc & Ht & Hd & Hn & _).
  split; [apply Hc; reflexivity|].
  split; [apply Ht; reflexivity|].
  split; [apply Hd; reflexivity|].
  apply Hn; reflexivity.
Defined.

(** C9 as stated fails for the centre name: when it is absent, or the
    empty string, the line of the centre ends right after its label. *)
Lemma missing_center_renders_empty :
  (truthy (center Samples.blank) = false /\
   centerText Samples.blank = EmptyString /\
   includes (formatMessage Samples.runtime Samples.blank)
            ("🏢 <b>Merkez:</b> " ++ nl ++ "🌍") = true) /\
  (truthy (center Samples.emptyCenter) = false /\
   centerText Samples.emptyCenter = EmptyString /\
   includes (formatMessage Samples.runtime Samples.emptyCenter)
            ("🏢 <b>Merkez:</b> " ++ nl ++ "🌍") = true).
Proof. repeat split; vm_compute; reflexivity. Qed.

End FormatterClaims.

(** ** More on the formatter *)

Section FormatterMore.

Import Formatter.

Lemma escapeSpec_app (a b : string) :
  escapeSpec (a ++ b) = escapeSpec a ++ escapeSpec b.
Proof.
  induction a as [|c a IH]; simpl; [reflexivity|].
  now rewrite IH, append_assoc.
Qed.

Lemma length_app (a b : string) :
  String.length (a ++ b) = (String.length a + String.length b)%nat.
Proof. induction a as [|c a IH]; simpl; [reflexivity|]. now rewrite IH. Qed.

Lemma escapeChar_cases (c : ascii) :
  (isMarkup c = true /\ exists tail, escapeChar c = String "&" tail /\ tail <> EmptyString) \/
  (isMarkup c = false /\ escapeChar c = String c EmptyString).
Proof.
  unfold isMarkup, escapeChar.
  destruct (Ascii.eqb c "&"); [left; split; [reflexivity|eexists; split; [reflexivity|discriminate]]|].
  destruct (Ascii.eqb c "<"); [left; split; [reflexivity|eexists; split; [reflexivity|discriminate]]|].
  destruct (Ascii.eqb c ">"); [left; split; [reflexivity|eexists; split; [reflexivity|discriminate]]|].
  destruct (Ascii.eqb c dquote); [left; split; [reflexivity|eexists; split; [reflexivity|discriminate]]|].
  destruct (Ascii.eqb c "'"); [left; split; [reflexivity|eexists; split; [reflexivity|discriminate]]|].
  right. split; reflexivity.
Qed.

Lemma length_escapeSpec (s : string) :
  (String.length s <= String.length (escapeSpec s))%nat /\
  (hasMarkup s = true -> (String.length s < String.length (escapeSpec s))%nat).
Proof.
  induction s as [|c s [IH1 IH2]]; simpl; [split; [lia|discriminate]|].
  rewrite length_app.
  destruct (escapeChar_cases c) as [(Hm & tail & -> & Hne)|(Hm & ->)]; rewrite Hm; simpl.
  - destruct tail as [|x tail]; [congruence|]. simpl. split; intros; lia.
  - split; [lia|]. intros H. specialize (IH2 H). lia.
Qed.

Lemma escapeSpec_clean (s : string) : hasMarkup s = false -> escapeSpec s = s.
Proof.
  induction s as [|c s IH]; simpl; [reflexivity|].
  intros H. apply orb_false_iff in H as [Hc Hs].
  destruct (escapeChar_cases c) as [(Hm & _)|(_ & ->)]; [congruence|].
  simpl. now rewrite (IH Hs).
Qed.

Lemma hasMarkup_escapeSpec (s : string) :
  hasMarkup s = true -> hasMarkup (escapeSpec s) = true.
Proof.
  induction s as [|c s IH]; simpl; [discriminate|].
  destruct (escapeChar_cases c) as [(Hm & tail & -> & _)|(Hm & ->)]; rewrite Hm; simpl.
  - reflexivity.
  - rewrite Hm. exact IH.
Qed.

(** X1.  Text without markup characters passes through [escapeHtml] unchanged,
    and no other text does; escaping never shortens a text. *)
Theorem escapeHtml_identity_on_clean_text (s : string) :
  (escapeHtml (Some s) = s <-> hasMarkup s = false) /\
  (String.length s <= String.length (escapeHtml (Some s)))%nat.
Proof.
  rewrite escapeHtml_spec. split; [|exact (proj1 (length_escapeSpec s))].
  split.
  - intros Heq. destruct (hasMarkup s) eqn:H; [|reflexivity].
    pose proof (proj2 (length_escapeSpec s) H) as Hlt. rewrite Heq in Hlt. lia.
  - apply escapeSpec_clean.
Qed.

(** X2.  [escapeHtml] is not idempotent: escaping a text that was already
    escaped changes it again exactly when the original held a markup
    character, since the ampersand of each entity is escaped once more. *)
Theorem escapeHtml_twice (s : string) :
  escapeHtml (Some (escapeHtml (Some s))) = escapeHtml (Some s) <->
  hasMarkup s = false.
Proof.
  rewrite !escapeHtml_spec. split.
  - intros Heq. destruct (hasMarkup s) eqn:H; [|reflexivity].
    pose proof (proj2 (length_escapeSpec (escapeSpec s))
                      (hasMarkup_escapeSpec s H)) as Hlt.
    rewrite Heq in Hlt. lia.
  - intros H. rewrite (escapeSpec_clean s H). exact (escapeSpec_clean s H).
Qed.

(** X3.  Escaping a concatenation is concatenating the escaped parts, an empty
    part included. *)
Theorem escapeHtml_app (a b : string) :
  escapeHtml (Some (a ++ b)) = escapeHtml (Some a) ++ escapeHtml (Some b).
Proof. rewrite !escapeHtml_spec. apply escapeSpec_app. Qed.

Lemma escapeChar_cancel (c1 c2 : ascii) (r1 r2 : string) :
  escapeChar c1 ++ r1 = escapeChar c2 ++ r2 -> c1 = c2 /\ r1 = r2.
Proof.
  unfold escapeChar.
  destruct (Ascii.eqb c1 "&") eqn:A1; [apply Ascii.eqb_eq in A1|];
  [|destruct (Ascii.eqb c1 "<") eqn:A2; [apply Ascii.eqb_eq in A2|];
    [|destruct (Ascii.eqb c1 ">") eqn:A3; [apply Ascii.eqb_eq in A3|];
      [|destruct (Ascii.eqb c1 dquote) eqn:A4; [apply Ascii.eqb_eq in A4|];
        [|destruct (Ascii.eqb c1 "'") eqn:A5; [apply Ascii.eqb_eq in A5|]]]]];
  (destruct (Ascii.eqb c2 "&") eqn:B1; [apply Ascii.eqb_eq in B1|];
   [|destruct (Ascii.eqb c2 "<") eqn:B2; [apply Ascii.eqb_eq in B2|];
     [|destruct (Ascii.eqb c2 ">") eqn:B3; [apply Ascii.eqb_eq in B3|];
       [|destruct (Ascii.eqb c2 dquote) eqn:B4; [apply Ascii.eqb_eq in B4|];
         [|destruct (Ascii.eqb c2 "'") eqn:B5; [apply Ascii.eqb_eq in B5|]]]]]);
  subst; simpl; intros H; try discriminate H;
  try (injection H as H; split; [reflexivity|exact H]);
  try (injection H as Hc Hr; subst;
       first [ rewrite Ascii.eqb_refl in *; discriminate
             | split; [reflexivity|reflexivity] ]).
Qed.

(** X4.  Distinct texts have distinct escapings: [escapeHtml] loses nothing. *)
Theorem escapeHtml_injective (s1 s2 : string) :
  escapeHtml (Some s1) = escapeHtml (Some s2) -> s1 = s2.
Proof.
  rewrite !escapeHtml_spec. revert s2.
  induction s1 as [|c1 s1 IH]; intros [|c2 s2]; simpl; intros H.
  - reflexivity.
  - destruct (escapeChar_cases c2) as [(_ & tail & Hc & _)|(_ & Hc)];
      rewrite Hc in H; discriminate H.
  - destruct (escapeChar_cases c1) as [(_ & tail & Hc & _)|(_ & Hc)];
      rewrite Hc in H; discriminate H.
  - apply escapeChar_cancel in H as [-> Hr]. now rewrite (IH s2 Hr).
Qed.

(** X5.  Nothing that [formatMessage] interpolates into the template brings raw
    markup with it, whatever the appointment holds.  The message has exactly
    the 20 [<] and the 20 [>] of the template's tags, no double quote and no
    apostrophe, and each of its [&] opens an entity; piece by piece, the
    eight escaped texts and the status icon show markup characters in escaped
    form only, and the tracking counter is rendered without any markup
    character. *)
Theorem interpolations_bring_no_markup (rt : Runtime) (a : VisaAppointment) :
  (countChar "<" (formatMessage rt a) = 20%nat /\
   countChar ">" (formatMessage rt a) = 20%nat /\
   countChar dquote (formatMessage rt a) = 0%nat /\
   countChar "'" (formatMessage rt a) = 0%nat /\
   ampsEscaped (formatMessage rt a) = true) /\
  onlyEscaped (centerText a) = true /\
  onlyEscaped (countryText rt a) = true /\
  onlyEscaped (missionText rt a) = true /\
  onlyEscaped (categoryText a) = true /\
  onlyEscaped (typeText a) = true /\
  onlyEscaped (escapeHtml (Some (statusText a))) = true /\
  onlyEscaped (dateText a) = true /\
  onlyEscaped (lastCheckedText rt a) = true /\
  onlyEscaped (statusEmoji a) = true /\
  hasMarkup (trackingText a) = false.
Proof.
  split; [apply message_markup|].
  unfold centerText, countryText, missionText, categoryText, typeText,
         dateText, lastCheckedText, trackingText.
  repeat match goal with
         | |- _ /\ _ => split
         | |- onlyEscaped (escapeHtml _) = true => apply onlyEscaped_escapeHtml
         end.
  - apply onlyEscaped_statusEmoji.
  - apply hasMarkup_numberToString.
Qed.

End FormatterMore.

(** * Properties of the dispatcher *)

Section DispatcherFacts.

Import Dispatcher.

Variable rt : Runtime.
Variable config : Config.

Lemma Some_inj (A : Type) (x y : A) : Some x = Some y -> y = x.
Proof. congruence. Qed.

Ltac took H := apply Some_inj in H; subst.

Ltac unfold_service :=
  unfold sendNotification, processQueue, afterSend, afterRetryPause, loop,
         send, park, debugLog, consoleWrite, record, addCall, setLast,
         setQueue, setProcessing, setClock, setTasks in *.

(** Under [singleConsumer], every step acts on the one activation there is;
    the tactic lists the shapes a step can have. *)
Ltac split_step Hstep :=
  repeat (simpl in Hstep;
          match type of Hstep with
          | context [if ?b then _ else _] => destruct b eqn:?
          | context [match ?l with [] => _ | _ :: _ => _ end] => destruct l eqn:?
          end);
  simpl in Hstep; inversion Hstep; subst; clear Hstep.

Ltac step_cases s ev Hinv Hstep :=
  let ts := fresh "ts" in
  let i := fresh "i" in
  let r := fresh "r" in
  destruct s as [? ? ? ? ts ? ? ?];
  unfold singleConsumer in Hinv; simpl in Hinv;
  destruct ts as [|[? ? ?|? ?|? ?] [|]]; try contradiction; subst;
  (destruct ev as [? ? | ? i | ? i r];
   [ | destruct i as [|[|?]] | destruct i as [|[|?]]; try destruct r as [|?] ]);
  simpl in Hstep; try discriminate;
  unfold_service; split_step Hstep.

Lemma step_singleConsumer (s s' : State) (ev : Event) :
  singleConsumer s -> step rt config s ev = Some s' -> singleConsumer s'.
Proof.
  intros Hinv Hstep. step_cases s ev Hinv Hstep; reflexivity.
Qed.

Lemma initial_singleConsumer : singleConsumer initial.
Proof. reflexivity. Qed.

(** An invariant of the steps that holds at the start holds after any
    schedule. *)
Lemma run_invariant (P : State -> Prop) :
  (forall s s' ev, P s -> step rt config s ev = Some s' -> P s') ->
  forall evs s s', P s -> run rt config s evs = Some s' -> P s'.
Proof.
  intros Hstep evs. induction evs as [|ev evs IH]; simpl; intros s s' HP Hrun.
  - now inversion Hrun; subst.
  - destruct (step rt config s ev) as [s1|] eqn:E; [|discriminate].
    eapply IH; [|exact Hrun]. eapply Hstep; eauto.
Qed.

Lemma reachable_singleConsumer (evs : list Event) (s : State) :
  run rt config initial evs = Some s -> singleConsumer s.
Proof.
  apply (run_invariant singleConsumer step_singleConsumer), initial_singleConsumer.
Qed.

Lemma run_app (evs1 evs2 : list Event) (s : State) :
  run rt config s (evs1 ++ evs2) =
  match run rt config s evs1 with
  | Some s1 => run rt config s1 evs2
  | None => None
  end.
Proof.
  revert s. induction evs1 as [|ev evs1 IH]; simpl; intros s; [reflexivity|].
  destruct (step rt config s ev); [apply IH|reflexivity].
Qed.

Lemma run_one (s : State) (ev : Event) :
  run rt config s [ev] = step rt config s ev.
Proof. cbn [run]. now destruct (step rt config s ev). Qed.

(** *** What a step leaves alone *)

Lemma park_frame (i : nat) (r : State * option Task) :
  lastMessageSentAt (park i r) = lastMessageSentAt (fst r) /\
  outcomes (park i r) = outcomes (fst r) /\
  clock (park i r) = clock (fst r).
Proof. destruct r as [[? ? ? ? ? ? ? ?] ?]. repeat split. Qed.

Lemma send_frame (a : VisaAppointment) (s : State) :
  lastMessageSentAt (fst (send rt config a s)) = lastMessageSentAt s /\
  outcomes (fst (send rt config a s)) = outcomes s /\
  clock (fst (send rt config a s)) = clock s.
Proof.
  destruct s. unfold_service. destruct (debug config); repeat split.
Qed.

Lemma loop_frame (s : State) :
  lastMessageSentAt (fst (loop rt config s)) = lastMessageSentAt s /\
  outcomes (fst (loop rt config s)) = outcomes s /\
  clock (fst (loop rt config s)) = clock s.
Proof.
  destruct s as [? q ? ? ? ? ? ?]. unfold_service. simpl.
  destruct q; [repeat split|].
  destruct (ltb _ _); destruct (debug config); repeat split.
Qed.

Lemma afterSend_frame (a : VisaAppointment) (called : Z)
    (r : SendResult) (s : State) :
  lastMessageSentAt (fst (afterSend rt config a called r s)) =
    match r with
    | Resolved => clock s
    | Rejected _ => lastMessageSentAt s
    end /\
  outcomes (fst (afterSend rt config a called r s)) =
    (outcomes s ++ [verdict a called (clock s) r])%list /\
  clock (fst (afterSend rt config a called r s)) = clock s.
Proof.
  destruct r as [|e]; unfold afterSend, verdict.
  - destruct (loop_frame (record (Delivered called
        (clock (setLast (clock (debugLog config (LogSent (id a)) s))
                        (debugLog config (LogSent (id a)) s))) a)
        (setLast (clock (debugLog config (LogSent (id a)) s))
                 (debugLog config (LogSent (id a)) s)))) as (-> & -> & ->).
    destruct s. unfold_service. destruct (debug config); repeat split.
  - destruct (retriable _).
    + destruct s. unfold_service. destruct (debug config); repeat split.
    + destruct (loop_frame (record (Dropped a)
          (consoleWrite (LogFormatSkip (id a))
             (consoleWrite (LogSendError (id a) e) s)))) as (-> & -> & ->).
      destruct s. repeat split.
Qed.

(** What a step does to [lastMessageSentAt], to the history and to the
    clock, in any state. *)
Lemma step_frame (s s' : State) (ev : Event) :
  step rt config s ev = Some s' ->
  lastMessageSentAt s' =
    match ev with
    | SendSettles t _ Resolved => t
    | _ => lastMessageSentAt s
    end /\
  outcomes s' =
    (outcomes s ++
     match ev with
     | SendSettles t i r =>
         match nth_error (tasks s) i with
         | Some (AwaitSend a calledAt) => [verdict a calledAt t r]
         | _ => []
         end
     | _ => []
     end)%list /\
  clock s' = eventTime ev.
Proof.
  intros Hstep. destruct ev as [t a | t i | t i r];
    unfold step in Hstep; cbv beta iota in Hstep.
  - took Hstep. unfold sendNotification. cbn [snd].
    destruct (negb _).
    + unfold processQueue.
      destruct (park_frame (List.length (tasks (setQueue (messageQueue (setClock t s) ++ [a]) (setClock t s))))
                 (loop rt config (setProcessing true
                    (setQueue (messageQueue (setClock t s) ++ [a]) (setClock t s)))))
        as (-> & -> & ->).
      destruct (loop_frame (setProcessing true
                    (setQueue (messageQueue (setClock t s) ++ [a]) (setClock t s))))
        as (-> & -> & ->).
      destruct s. simpl. now rewrite app_nil_r.
    + destruct s. simpl. now rewrite app_nil_r.
  - destruct (nth_error (tasks s) i) as [[? ? ?|? ?|? ?]|]; try discriminate;
      took Hstep.
    + destruct (park_frame i (send rt config appointment (setClock t s))) as (-> & -> & ->).
      destruct (send_frame appointment (setClock t s)) as (-> & -> & ->).
      destruct s. simpl. now rewrite app_nil_r.
    + destruct s. simpl. now rewrite app_nil_r.
  - destruct (nth_error (tasks s) i) as [[? ? ?|? ?|? ?]|]; try discriminate.
    took Hstep.
    destruct (park_frame i (afterSend rt config appointment calledAt r (setClock t s)))
      as (-> & -> & ->).
    destruct (afterSend_frame appointment calledAt r (setClock t s)) as (-> & -> & ->).
    destruct r; destruct s; repeat split.
Qed.

(** *** Runs without transient failures *)

Lemma Forall_snoc (A : Type) (P : A -> Prop) (l : list A) (x : A) :
  Forall P l -> P x -> Forall P (l ++ [x]).
Proof. intros Hl Hx. apply Forall_app. split; [exact Hl|]. now constructor. Qed.

Lemma finishedOf_app (a b : list Settled) :
  finishedOf (a ++ b) = (finishedOf a ++ finishedOf b)%list.
Proof.
  induction a as [|[? ? ?|?|?] a IH]; simpl; [reflexivity| | |exact IH];
    now rewrite IH.
Qed.

Lemma step_orderInv (enq : list VisaAppointment) (s s' : State) (ev : Event) :
  orderInv rt config enq s ->
  step rt config s ev = Some s' ->
  noTransient [ev] = true ->
  orderInv rt config (enq ++ notified [ev]) s'.
Proof.
  intros (Hsc & Hord & Hfin & Hidle & Hnp & Hcalls) Hstep Hev.
  unfold orderInv, held, flying.
  step_cases s ev Hsc Hstep; simpl in *; try discriminate.
  all: try (specialize (Hidle eq_refl); subst).
  all: try match goal with
           | H : (_ ++ [_])%list = [] |- _ => now apply app_eq_nil in H
           | H : ([] ++ [_])%list = _ :: _ |- _ => simpl in H; inversion H; subst; clear H
           end.
  all: try match goal with
           | H : negb true = true |- _ => discriminate H
           | H : (negb ?b && true) = true, H' : ?b = true |- _ =>
               rewrite H' in H; discriminate H
           end.
  all: subst; rewrite ?finishedOf_app, ?map_app, ?app_nil_r, <- ?app_assoc in *; simpl.
  all: repeat match goal with |- _ /\ _ => split end;
       try reflexivity; try discriminate; try assumption;
       try (apply Forall_snoc; [assumption|now repeat split]).
  all: try congruence.
  all: rewrite <- Hfin, <- app_assoc; reflexivity.
Qed.

Lemma noTransient_cons (ev : Event) (evs : list Event) :
  noTransient (ev :: evs) = noTransient [ev] && noTransient evs.
Proof. unfold noTransient. simpl. now rewrite andb_true_r. Qed.

Lemma initial_orderInv : orderInv rt config [] initial.
Proof. repeat split. constructor. Qed.

Lemma run_orderInv (evs : list Event) (enq : list VisaAppointment) (s s' : State) :
  orderInv rt config enq s ->
  run rt config s evs = Some s' ->
  noTransient evs = true ->
  orderInv rt config (enq ++ notified evs) s'.
Proof.
  revert enq s. induction evs as [|ev evs IH]; intros enq s Hinv Hrun Hev.
  - simpl in *. took Hrun. now rewrite app_nil_r.
  - simpl in Hrun. destruct (step rt config s ev) as [s1|] eqn:E; [|discriminate].
    rewrite noTransient_cons in Hev. apply andb_prop in Hev as [Hev1 Hev2].
    pose proof (step_orderInv _ _ _ _ Hinv E Hev1) as H1.
    specialize (IH _ _ H1 Hrun Hev2).
    replace (enq ++ notified (ev :: evs))%list
      with ((enq ++ notified [ev]) ++ notified evs)%list; [exact IH|].
    rewrite <- app_assoc. f_equal. now destruct ev.
Qed.

Lemma noFailure_noTransient (evs : list Event) :
  noFailure evs = true -> noTransient evs = true.
Proof.
  unfold noFailure, noTransient. rewrite !forallb_forall.
  intros H ev Hin. specialize (H ev Hin). destruct ev as [| |? ? [|?]]; congruence.
Qed.

(** Without a rejected send, every finished attempt is a delivery. *)
Lemma deliveredOf_app (a b : list Settled) :
  deliveredOf (a ++ b) = (deliveredOf a ++ deliveredOf b)%list.
Proof.
  induction a as [|[? ? ?|?|?] a IH]; simpl; [reflexivity| |exact IH|exact IH];
    now rewrite IH.
Qed.

Lemma step_only_deliveries (s s' : State) (ev : Event) :
  finishedOf (outcomes s) = deliveredOf (outcomes s) ->
  step rt config s ev = Some s' ->
  noFailure [ev] = true ->
  finishedOf (outcomes s') = deliveredOf (outcomes s').
Proof.
  intros Hinv Hstep Hev. destruct (step_frame _ _ _ Hstep) as (_ & -> & _).
  rewrite finishedOf_app, deliveredOf_app, Hinv. f_equal.
  destruct ev as [| |t i [|e]]; try reflexivity; [|discriminate].
  destruct (nth_error (tasks s) i) as [[| |]|]; reflexivity.
Qed.

Lemma run_only_deliveries (evs : list Event) (s s' : State) :
  finishedOf (outcomes s) = deliveredOf (outcomes s) ->
  run rt config s evs = Some s' ->
  noFailure evs = true ->
  finishedOf (outcomes s') = deliveredOf (outcomes s').
Proof.
  revert s. induction evs as [|ev evs IH]; intros s Hinv Hrun Hev.
  - simpl in Hrun. now took Hrun.
  - simpl in Hrun. destruct (step rt config s ev) as [s1|] eqn:E; [|discriminate].
    simpl in Hev. apply andb_prop in Hev as [Hev1 Hev2].
    apply (IH s1); [|assumption|assumption].
    eapply step_only_deliveries; eauto. simpl. now rewrite Hev1.
Qed.


(** *** The rate limiter *)

Lemma ltb_true (a b : Q) : ltb a b = true -> a < b.
Proof.
  unfold ltb. intros H. apply negb_true_iff in H.
  destruct (Qlt_le_dec a b) as [Hlt|Hle]; [exact Hlt|].
  apply Qle_bool_iff in Hle. congruence.
Qed.

Lemma ltb_false (a b : Q) : ltb a b = false -> b <= a.
Proof.
  unfold ltb. intros H. apply negb_false_iff in H. now apply Qle_bool_iff.
Qed.

Lemma deliveries_app (a b : list Settled) :
  deliveries (a ++ b) = (deliveries a ++ deliveries b)%list.
Proof.
  induction a as [|[? ? ?|?|?] a IH]; simpl; [reflexivity| |exact IH|exact IH];
    now rewrite IH.
Qed.

Lemma lastDone_snoc (l : list (Z * Z)) (c d : Z) :
  lastDone (l ++ [(c, d)]) = Some d.
Proof.
  induction l as [|[c1 d1] l IH]; simpl; [reflexivity|]. now rewrite IH.
Qed.

Lemma spaced_snoc (gap : Q) (l : list (Z * Z)) (c d : Z) :
  spaced gap l ->
  (c <= d)%Z ->
  (forall d0, lastDone l = Some d0 -> gap <= inject_Z c - inject_Z d0) ->
  spaced gap (l ++ [(c, d)]).
Proof.
  induction l as [|[c1 d1] l IH]; simpl; intros Hsp Hcd Hlast.
  - repeat split; assumption.
  - destruct Hsp as (H1 & H2 & H3). split; [exact H1|]. split.
    + destruct l as [|[c2 d2] l]; simpl; [|exact H2].
      apply Hlast. reflexivity.
    + apply IH; [exact H3|exact Hcd|].
      intros d0 Hd0. apply Hlast. now rewrite Hd0.
Qed.

Lemma spaced_adjacent (gap : Q) (pre post : list (Z * Z)) (c1 d1 c2 d2 : Z) :
  spaced gap (pre ++ (c1, d1) :: (c2, d2) :: post) ->
  gap <= inject_Z c2 - inject_Z d1 /\ (c1 <= d1)%Z /\ (c2 <= d2)%Z.
Proof.
  induction pre as [|[c d] pre IH]; simpl.
  - intros (H1 & H2 & H3 & _). repeat split; assumption.
  - intros (_ & _ & H). exact (IH H).
Qed.

Lemma step_rateInv (s s' : State) (ev : Event) :
  rateInv config s ->
  step rt config s ev = Some s' ->
  timely s ev = true ->
  rateInv config s'.
Proof.
  intros (Hsc & Hsp & Hlast & Htasks) Hstep Htime.
  split; [exact (step_singleConsumer _ _ _ Hsc Hstep)|].
  unfold timely in Htime. apply andb_prop in Htime as [Hclock Hdue].
  apply Z.leb_le in Hclock.
  step_cases s ev Hsc Hstep; simpl in *.
  all: rewrite ?deliveries_app, ?app_nil_r; simpl.
  all: repeat match goal with
              | H : Forall _ (_ :: _) |- _ => inversion H; subst; clear H
              | H : ltb _ _ = true |- _ => apply ltb_true in H
              | H : ltb _ _ = false |- _ => apply ltb_false in H
              | H : Qle_bool _ _ = true |- _ => apply Qle_bool_iff in H
              | H : _ /\ _ |- _ => destruct H
              | H : context [inject_Z (_ - _)] |- _ =>
                  unfold Z.sub in H; rewrite inject_Z_plus, inject_Z_opp in H
              end.
  all: unfold Z.sub; rewrite ?inject_Z_plus, ?inject_Z_opp.
  all: (split; [|split]);
       [ first [ assumption
               | apply spaced_snoc;
                 [ assumption | lia
                 | let d0 := fresh "d0" in let Hd0 := fresh "Hd0" in
                   intros d0 Hd0; apply Hlast in Hd0; subst d0; lra ] ]
       | first [ assumption
               | let d := fresh "d" in let Hd := fresh "Hd" in
                 intros d Hd; rewrite lastDone_snoc in Hd; congruence ]
       | repeat constructor; first [ lra | lia | idtac ] ].
Qed.

Lemma initial_rateInv : rateInv config initial.
Proof. repeat split; try constructor. discriminate. Qed.

Lemma run_rateInv (evs : list Event) (s s' : State) :
  rateInv config s ->
  run rt config s evs = Some s' ->
  wellTimed rt config s evs = true ->
  rateInv config s'.
Proof.
  revert s. induction evs as [|ev evs IH]; intros s Hinv Hrun Hwt.
  - simpl in Hrun. now took Hrun.
  - simpl in Hrun, Hwt. apply andb_prop in Hwt as [Ht Hwt].
    destruct (step rt config s ev) as [s1|] eqn:E; [|discriminate].
    exact (IH s1 (step_rateInv _ _ _ Hinv E Ht) Hrun Hwt).
Qed.

(** Line 101 computes sixty thousand milliseconds over the rate. *)
Lemma requiredDelay_value :
  0 < rateLimit config -> requiredDelay config == 60000 / rateLimit config.
Proof.
  intros Hpos. unfold requiredDelay. field. intros H0. rewrite H0 in Hpos.
  now apply Qlt_irrefl in Hpos.
Qed.

(** Lines 99-111: with an appointment at the head of the queue, the loop
    either arms a timer for the rest of the required delay and calls
    nothing, or calls [sendMessage] at once. *)
Lemma loop_rate_limit (s : State) (a : VisaAppointment) (rest : list VisaAppointment) :
  messageQueue s = a :: rest ->
  let since := inject_Z (clock s - lastMessageSentAt s) in
  (since < requiredDelay config ->
   snd (loop rt config s) =
     Some (AwaitRateDelay a (clock s) (requiredDelay config - since)) /\
   calls (fst (loop rt config s)) = calls s) /\
  (requiredDelay config <= since ->
   snd (loop rt config s) = Some (AwaitSend a (clock s)) /\
   calls (fst (loop rt config s)) =
     (calls s ++ [mkCall (clock s) (channelId config)
                         (Formatter.formatMessage rt a) "HTML" a])%list).
Proof.
  intros Hq. destruct s as [? q ? ? ? ? ? ?]. simpl in Hq. subst q.
  unfold_service. simpl.
  destruct (ltb _ _) eqn:E.
  - apply ltb_true in E. split; intros H.
    + destruct (debug config); split; reflexivity.
    + exfalso. apply (Qlt_irrefl (requiredDelay config)).
      eapply Qle_lt_trans; eassumption.
  - apply ltb_false in E. split; intros H.
    + exfalso. apply (Qlt_irrefl (requiredDelay config)).
      eapply Qle_lt_trans; eassumption.
    + destruct (debug config); split; reflexivity.
Qed.

(** *** Single steps of the one activation *)

Ltac at_single s Htasks :=
  destruct s as [? ? ? ? ? ? ? ?]; simpl in *; subst;
  unfold step; simpl; unfold_service; simpl.

(** A transient failure: the appointment goes back to the front, and the
    activation waits for the configured pause. *)
Lemma reject_transient (s : State) (a : VisaAppointment) (called t : Z) (e : JsError) :
  tasks s = [AwaitSend a called] ->
  retriable (errorMessageOf e) = true ->
  exists s1,
    step rt config s (SendSettles t 0 (Rejected e)) = Some s1 /\
    messageQueue s1 = a :: messageQueue s /\
    tasks s1 = [AwaitRetryPause t (retryAfter config)] /\
    isProcessingQueue s1 = isProcessingQueue s /\
    calls s1 = calls s /\
    lastMessageSentAt s1 = lastMessageSentAt s /\
    outcomes s1 = (outcomes s ++ [Requeued a])%list.
Proof.
  intros Htasks Hre. at_single s Htasks. rewrite Hre.
  destruct (debug config); eexists; repeat split.
Qed.

(** While an activation exists, [sendNotification] only appends. *)
Lemma notify_while_running (during : list (Z * VisaAppointment)) (s : State) :
  isProcessingQueue s = true ->
  exists s2,
    run rt config s (map (fun p => Notify (fst p) (snd p)) during) = Some s2 /\
    messageQueue s2 = (messageQueue s ++ map snd during)%list /\
    tasks s2 = tasks s /\
    isProcessingQueue s2 = true /\
    calls s2 = calls s /\
    lastMessageSentAt s2 = lastMessageSentAt s /\
    outcomes s2 = outcomes s.
Proof.
  revert s. induction during as [|[t b] during IH]; intros s Hflag.
  - exists s. simpl. rewrite app_nil_r. repeat split. exact Hflag.
  - destruct (IH (setQueue (messageQueue s ++ [b]) (setClock t s)))
      as (s2 & Hrun & Hq & Ht & Hf & Hc & Hl & Ho).
    { destruct s; exact Hflag. }
    exists s2. cbn [map run fst snd]. unfold step, sendNotification.
    replace (isProcessingQueue
               (setQueue (messageQueue (setClock t s) ++ [b]) (setClock t s)))
      with true by (destruct s; simpl in *; congruence).
    cbn [negb snd].
    replace (setQueue (messageQueue (setClock t s) ++ [b]) (setClock t s))
      with (setQueue (messageQueue s ++ [b]) (setClock t s))
      by (destruct s; reflexivity).
    split; [exact Hrun|].
    rewrite Hq, Ht, Hc, Hl, Ho. destruct s; simpl.
    rewrite <- app_assoc. repeat split. exact Hf.
Qed.

(** The pause is over: the pass stops, and the queue stays as it is. *)
Lemma pause_over (s : State) (armed delay t : Z) :
  tasks s = [AwaitRetryPause armed delay] ->
  exists s3,
    step rt config s (TimerFires t 0) = Some s3 /\
    tasks s3 = [] /\
    isProcessingQueue s3 = false /\
    messageQueue s3 = messageQueue s /\
    calls s3 = calls s /\
    lastMessageSentAt s3 = lastMessageSentAt s /\
    outcomes s3 = outcomes s.
Proof.
  intros Htasks. at_single s Htasks. eexists; repeat split.
Qed.

Lemma pause_length (s : State) (armed delay t : Z) :
  tasks s = [AwaitRetryPause armed delay] ->
  timely s (TimerFires t 0) = true <-> (clock s <= t /\ armed + delay <= t)%Z.
Proof.
  intros Htasks. unfold timely. rewrite Htasks. simpl.
  rewrite andb_true_iff, !Z.leb_le. reflexivity.
Qed.

(** With no activation and a non-empty queue, the next [sendNotification]
    starts a pass that takes the head of the queue. *)
Lemma restart (s : State) (a b : VisaAppointment) (rest : list VisaAppointment) (t : Z) :
  tasks s = [] ->
  isProcessingQueue s = false ->
  messageQueue s = a :: rest ->
  exists s4,
    step rt config s (Notify t b) = Some s4 /\
    isProcessingQueue s4 = true /\
    messageQueue s4 = (rest ++ [b])%list /\
    lastMessageSentAt s4 = lastMessageSentAt s /\
    outcomes s4 = outcomes s /\
    ((tasks s4 = [AwaitSend a t] /\
      calls s4 = (calls s ++ [mkCall t (channelId config)
                                (Formatter.formatMessage rt a) "HTML" a])%list) \/
     (exists d, tasks s4 = [AwaitRateDelay a t d] /\ calls s4 = calls s)).
Proof.
  intros Htasks Hflag Hq. at_single s Htasks.
  destruct (ltb _ _); destruct (debug config); eexists; repeat split;
    solve [ left; split; reflexivity | right; eexists; split; reflexivity ].
Qed.

(** With no activation, nothing but a [sendNotification] can happen. *)
Lemma idle_waits (s : State) :
  tasks s = [] ->
  forall t i r,
    step rt config s (TimerFires t i) = None /\
    step rt config s (SendSettles t i r) = None.
Proof.
  intros Htasks t i r. unfold step. rewrite Htasks.
  destruct i; split; reflexivity.
Qed.

(** A content error: the appointment is dropped and the loop goes on at
    once with what is next in the queue. *)
Lemma reject_content (s : State) (a : VisaAppointment) (called t : Z) (e : JsError) :
  tasks s = [AwaitSend a called] ->
  retriable (errorMessageOf e) = false ->
  exists s1,
    step rt config s (SendSettles t 0 (Rejected e)) = Some s1 /\
    lastMessageSentAt s1 = lastMessageSentAt s /\
    outcomes s1 = (outcomes s ++ [Dropped a])%list /\
    existsb isRetryPause (tasks s1) = false /\
    (exists more,
       console s1 = (console s ++ [LogSendError (id a) e; LogFormatSkip (id a)]
                               ++ more)%list) /\
    match messageQueue s with
    | [] =>
        tasks s1 = [] /\ messageQueue s1 = [] /\
        isProcessingQueue s1 = false /\ calls s1 = calls s
    | b :: rest =>
        messageQueue s1 = rest /\
        isProcessingQueue s1 = isProcessingQueue s /\
        ((tasks s1 = [AwaitSend b t] /\
          calls s1 = (calls s ++ [mkCall t (channelId config)
                                    (Formatter.formatMessage rt b) "HTML" b])%list) \/
         (exists d, tasks s1 = [AwaitRateDelay b t d] /\ calls s1 = calls s))
    end.
Proof.
  intros Htasks Hre. at_single s Htasks. rewrite Hre.
  match goal with |- context [match ?q with [] => _ | _ :: _ => _ end] => destruct q end.
  - eexists. repeat split. exists []. simpl. now rewrite <- app_assoc.
  - simpl. destruct (ltb _ _); destruct (debug config); eexists; repeat split;
      try solve [ left; split; reflexivity | right; eexists; split; reflexivity ];
      simpl; rewrite <- ?app_assoc; simpl; eexists; reflexivity.
Qed.

(** *** Nothing is lost or reordered, whatever fails *)

Lemma step_pendingInv (enq : list VisaAppointment) (s s' : State) (ev : Event) :
  pendingInv enq s ->
  step rt config s ev = Some s' ->
  pendingInv (enq ++ notified [ev]) s'.
Proof.
  intros (Hsc & Hord) Hstep.
  split; [exact (step_singleConsumer _ _ _ Hsc Hstep)|].
  unfold held, flying in *.
  step_cases s ev Hsc Hstep; simpl in *.
  all: try match goal with
           | H : (_ ++ [_])%list = [] |- _ => now apply app_eq_nil in H
           end.
  all: subst; rewrite ?finishedOf_app, ?app_nil_r, <- ?app_assoc in *; simpl.
  all: try reflexivity.
  all: try match goal with
           | H : (?q ++ [?x])%list = _ :: _ |- _ => rewrite <- ?H
           end; try reflexivity.
Qed.

Lemma run_pendingInv (evs : list Event) (enq : list VisaAppointment) (s s' : State) :
  pendingInv enq s ->
  run rt config s evs = Some s' ->
  pendingInv (enq ++ notified evs) s'.
Proof.
  revert enq s. induction evs as [|ev evs IH]; intros enq s Hinv Hrun.
  - simpl in *. took Hrun. now rewrite app_nil_r.
  - simpl in Hrun. destruct (step rt config s ev) as [s1|] eqn:E; [|discriminate].
    specialize (IH _ _ (step_pendingInv _ _ _ _ Hinv E) Hrun).
    replace (enq ++ notified (ev :: evs))%list
      with ((enq ++ notified [ev]) ++ notified evs)%list; [exact IH|].
    rewrite <- app_assoc. f_equal. now destruct ev.
Qed.

(** ** The claims about the dispatcher *)

(** C1.  In every schedule in which no send fails, [sendMessage] is called
    for the appointments in the order [sendNotification] received them: the
    calls made so far, then the appointment waiting for its rate-limit delay,
    then the queue, are the appointments handed in, in order; each call
    carries the formatted text of its appointment to the configured channel
    and was delivered or is in flight; and once the dispatcher is idle every
    appointment handed in has been delivered, in that order. *)
Theorem fifo_delivery (evs : list Event) (s : State) :
  run rt config initial evs = Some s ->
  noFailure evs = true ->
  (map callFor (calls s) ++ held s ++ messageQueue s)%list = notified evs /\
  (deliveredOf (outcomes s) ++ flying s)%list = map callFor (calls s) /\
  Forall (fun c => callText c = Formatter.formatMessage rt (callFor c) /\
                   callChat c = channelId config /\
                   callParseMode c = "HTML") (calls s) /\
  (tasks s = [] ->
   messageQueue s = [] /\
   map callFor (calls s) = notified evs /\
   deliveredOf (outcomes s) = notified evs).
Proof.
  intros Hrun Hok.
  pose proof (run_orderInv evs [] initial s initial_orderInv Hrun
                (noFailure_noTransient evs Hok))
    as (Hsc & Hord & Hfin & Hidle & _ & Hcalls).
  pose proof (run_only_deliveries evs initial s eq_refl Hrun Hok) as Hdel.
  simpl in Hord. rewrite Hdel in Hfin.
  split; [exact Hord|]. split; [exact Hfin|]. split; [exact Hcalls|].
  intros Hnone. specialize (Hidle Hnone).
  unfold held, flying in *. rewrite Hnone, Hidle in *. simpl in *.
  rewrite !app_nil_r in *. repeat split; congruence.
Qed.

(** C2.  With a positive rate and a clock that does not go back and timers
    that do not fire early, any two consecutive successful sends are at least
    [60000 / rateLimit] milliseconds apart: the later [sendMessage] is called
    no earlier than that after [lastMessageSentAt] was set for the earlier
    one.  The loop computes that delay at line 101 and, with an appointment
    at hand, either sleeps for what is left of it or sends at once; and
    [lastMessageSentAt] is the end of the latest successful send. *)
Theorem rate_bound (evs : list Event) (s : State) :
  0 < rateLimit config ->
  run rt config initial evs = Some s ->
  wellTimed rt config initial evs = true ->
  requiredDelay config == 60000 / rateLimit config /\
  (forall pre post c1 d1 c2 d2,
     deliveries (outcomes s) = (pre ++ (c1, d1) :: (c2, d2) :: post)%list ->
     60000 / rateLimit config <= inject_Z c2 - inject_Z d1 /\
     (c1 <= d1)%Z /\ (c2 <= d2)%Z) /\
  (forall d, lastDone (deliveries (outcomes s)) = Some d ->
             d = lastMessageSentAt s) /\
  (forall a rest,
     messageQueue s = a :: rest ->
     let since := inject_Z (clock s - lastMessageSentAt s) in
     (since < requiredDelay config ->
      snd (loop rt config s) =
        Some (AwaitRateDelay a (clock s) (requiredDelay config - since)) /\
      calls (fst (loop rt config s)) = calls s) /\
     (requiredDelay config <= since ->
      snd (loop rt config s) = Some (AwaitSend a (clock s)))).
Proof.
  intros Hpos Hrun Hwt.
  pose proof (run_rateInv evs initial s initial_rateInv Hrun Hwt)
    as (_ & Hsp & Hlast & _).
  pose proof (requiredDelay_value Hpos) as Hval.
  split; [exact Hval|]. split; [|split; [exact Hlast|]].
  - intros pre post c1 d1 c2 d2 Heq. rewrite Heq in Hsp.
    apply spaced_adjacent in Hsp as (Hgap & H1 & H2).
    rewrite <- Hval. repeat split; assumption.
  - intros a rest Hq. destruct (loop_rate_limit s a rest Hq) as [Hwait Hsend].
    split; [exact Hwait|]. intros H. exact (proj1 (Hsend H)).
Qed.

(** C3, as amended.  After a send fails with a transient error the
    appointment is back at the front of the queue and the activation waits
    for [retryAfter] milliseconds, during which [sendNotification] only
    appends; when the pause is over the pass stops: no activation is left,
    [isProcessingQueue] is false, the queue is untouched and nothing was
    sent.  The next [sendNotification] starts a new pass, which takes the
    failed appointment first.  Until then nothing happens: with items left in
    the queue, no timer and no send is outstanding. *)
Theorem transient_failure_pauses_and_stops
    (evs : list Event) (s : State) (a b : VisaAppointment) (called t t2 t3 : Z)
    (e : JsError) (during : list (Z * VisaAppointment)) :
  run rt config initial evs = Some s ->
  tasks s = [AwaitSend a called] ->
  retriable (errorMessageOf e) = true ->
  exists s1 s2 s3 s4,
    step rt config s (SendSettles t 0 (Rejected e)) = Some s1 /\
    messageQueue s1 = a :: messageQueue s /\
    tasks s1 = [AwaitRetryPause t (retryAfter config)] /\
    isProcessingQueue s1 = true /\
    run rt config s1 (map (fun p => Notify (fst p) (snd p)) during) = Some s2 /\
    messageQueue s2 = (a :: messageQueue s ++ map snd during)%list /\
    tasks s2 = [AwaitRetryPause t (retryAfter config)] /\
    (timely s2 (TimerFires t2 0) = true <->
     (clock s2 <= t2 /\ t + retryAfter config <= t2)%Z) /\
    step rt config s2 (TimerFires t2 0) = Some s3 /\
    tasks s3 = [] /\
    isProcessingQueue s3 = false /\
    messageQueue s3 = messageQueue s2 /\
    calls s3 = calls s /\
    (forall t' i r,
       step rt config s3 (TimerFires t' i) = None /\
       step rt config s3 (SendSettles t' i r) = None) /\
    step rt config s3 (Notify t3 b) = Some s4 /\
    isProcessingQueue s4 = true /\
    messageQueue s4 = (messageQueue s ++ map snd during ++ [b])%list /\
    (tasks s4 = [AwaitSend a t3] \/ exists d, tasks s4 = [AwaitRateDelay a t3 d]).
Proof.
  intros Hrun Htasks Hre.
  pose proof (reachable_singleConsumer evs s Hrun) as Hsc.
  unfold singleConsumer in Hsc. rewrite Htasks in Hsc.
  destruct (reject_transient s a called t e Htasks Hre)
    as (s1 & H1 & Hq1 & Ht1 & Hf1 & Hc1 & _).
  rewrite Hsc in Hf1.
  destruct (notify_while_running during s1 Hf1)
    as (s2 & H2 & Hq2 & Ht2 & Hf2 & Hc2 & _).
  rewrite Ht1 in Ht2. rewrite Hq1 in Hq2.
  destruct (pause_over s2 t (retryAfter config) t2 Ht2)
    as (s3 & H3 & Ht3 & Hf3 & Hq3 & Hc3 & _).
  assert (Hq3' : messageQueue s3 = a :: (messageQueue s ++ map snd during)%list)
    by (rewrite Hq3, Hq2; reflexivity).
  destruct (restart s3 a b _ t3 Ht3 Hf3 Hq3')
    as (s4 & H4 & Hf4 & Hq4 & _ & _ & Ht4).
  exists s1, s2, s3, s4.
  repeat match goal with |- _ /\ _ => split end; try assumption.
  - exact (pause_length s2 t (retryAfter config) t2 Ht2).
  - congruence.
  - exact (idle_waits s3 Ht3).
  - rewrite Hq4. now rewrite <- app_assoc.
  - destruct Ht4 as [[Ht4 _]|[d [Ht4 _]]]; [left|right; exists d]; exact Ht4.
Qed.

(** C4.  When the appointment [E] fails transiently while [F] and [G] are
    queued behind it, the queue is [E, F, G, ...] after the failure and still
    so when the pause is over, whatever was handed in meanwhile going to the
    back; the pass that the next [sendNotification] starts takes [E] and
    leaves [F, G, ...] queued in that order; and all along nothing handed in
    is lost or reordered. *)
Theorem requeued_event_goes_first
    (evs : list Event) (s : State) (E F G b : VisaAppointment)
    (rest : list VisaAppointment) (called t t2 t3 : Z) (e : JsError)
    (during : list (Z * VisaAppointment)) :
  run rt config initial evs = Some s ->
  tasks s = [AwaitSend E called] ->
  messageQueue s = F :: G :: rest ->
  retriable (errorMessageOf e) = true ->
  exists s1 s2 s3 s4,
    step rt config s (SendSettles t 0 (Rejected e)) = Some s1 /\
    messageQueue s1 = E :: F :: G :: rest /\
    run rt config s1 (map (fun p => Notify (fst p) (snd p)) during) = Some s2 /\
    step rt config s2 (TimerFires t2 0) = Some s3 /\
    messageQueue s3 = (E :: F :: G :: rest ++ map snd during)%list /\
    step rt config s3 (Notify t3 b) = Some s4 /\
    (held s4 ++ flying s4)%list = [E] /\
    messageQueue s4 = (F :: G :: rest ++ map snd during ++ [b])%list /\
    (finishedOf (outcomes s4) ++ E :: F :: G :: rest ++ map snd during ++ [b])%list
      = (notified evs ++ map snd during ++ [b])%list.
Proof.
  intros Hrun Htasks Hq Hre.
  pose proof (reachable_singleConsumer evs s Hrun) as Hsc.
  unfold singleConsumer in Hsc. rewrite Htasks in Hsc.
  assert (Hpend : pendingInv [] initial) by (split; reflexivity).
  pose proof (run_pendingInv evs [] initial s Hpend Hrun) as [_ Hord].
  unfold held, flying in Hord. rewrite Htasks, Hq in Hord. simpl in Hord.
  destruct (reject_transient s E called t e Htasks Hre)
    as (s1 & H1 & Hq1 & Ht1 & Hf1 & Hc1 & Hl1 & Ho1).
  rewrite Hsc in Hf1.
  destruct (notify_while_running during s1 Hf1)
    as (s2 & H2 & Hq2 & Ht2 & Hf2 & Hc2 & Hl2 & Ho2).
  rewrite Ht1 in Ht2. rewrite Hq1, Hq in Hq2.
  destruct (pause_over s2 t (retryAfter config) t2 Ht2)
    as (s3 & H3 & Ht3 & Hf3 & Hq3 & Hc3 & Hl3 & Ho3).
  rewrite Hq2 in Hq3. simpl in Hq3.
  destruct (restart s3 E b _ t3 Ht3 Hf3 Hq3)
    as (s4 & H4 & Hf4 & Hq4 & _ & Ho4 & Ht4).
  exists s1, s2, s3, s4.
  repeat match goal with |- _ /\ _ => split end; try assumption.
  - now rewrite Hq1, Hq.
  - unfold held, flying.
    destruct Ht4 as [[Ht4 _]|[d [Ht4 _]]]; rewrite Ht4; reflexivity.
  - rewrite Hq4. simpl. now rewrite <- app_assoc.
  - rewrite Ho4, Ho3, Ho2, Ho1, finishedOf_app. simpl. rewrite app_nil_r.
    rewrite <- Hord, <- !app_assoc. reflexivity.
Qed.

(** C5, as amended.  When the send of an appointment is rejected with a
    content error, both error lines are logged, the appointment goes down as
    dropped and is not pending again, so that no further attempt is made for
    it: what is pending afterwards is what was queued behind it.  No retry
    pause is taken, [lastMessageSentAt] is unchanged, and in the same turn
    the loop takes the next appointment of the queue, or ends when there is
    none; the only call that may be added is the one for that next
    appointment.  Where no send failed transiently before, each appointment
    handed in has had exactly one call or is still pending. *)
Theorem content_error_drops
    (evs : list Event) (s : State) (a : VisaAppointment) (called t : Z) (e : JsError) :
  run rt config initial evs = Some s ->
  tasks s = [AwaitSend a called] ->
  retriable (errorMessageOf e) = false ->
  exists s1,
    step rt config s (SendSettles t 0 (Rejected e)) = Some s1 /\
    outcomes s1 = (outcomes s ++ [Dropped a])%list /\
    (exists more,
       console s1 = (console s ++ [LogSendError (id a) e; LogFormatSkip (id a)]
                               ++ more)%list) /\
    (held s1 ++ flying s1 ++ messageQueue s1)%list = messageQueue s /\
    existsb isRetryPause (tasks s1) = false /\
    lastMessageSentAt s1 = lastMessageSentAt s /\
    match messageQueue s with
    | [] => tasks s1 = [] /\ isProcessingQueue s1 = false /\ calls s1 = calls s
    | next :: _ =>
        isProcessingQueue s1 = true /\
        ((tasks s1 = [AwaitSend next t] /\
          calls s1 = (calls s ++ [mkCall t (channelId config)
                                    (Formatter.formatMessage rt next) "HTML" next])%list) \/
         (exists d, tasks s1 = [AwaitRateDelay next t d] /\ calls s1 = calls s))
    end /\
    (noTransient evs = true ->
     (map callFor (calls s1) ++ held s1 ++ messageQueue s1)%list = notified evs).
Proof.
  intros Hrun Htasks Hre.
  pose proof (reachable_singleConsumer evs s Hrun) as Hsc.
  unfold singleConsumer in Hsc. rewrite Htasks in Hsc.
  destruct (reject_content s a called t e Htasks Hre)
    as (s1 & H1 & Hl1 & Ho1 & Hp1 & Hlog & Hnext).
  exists s1.
  repeat match goal with |- _ /\ _ => split end; try assumption.
  - unfold held, flying. destruct (messageQueue s) as [|next rest].
    + destruct Hnext as (Ht & Hq & _). now rewrite Ht, Hq.
    + destruct Hnext as (Hq & _ & [[Ht _]|[d [Ht _]]]); now rewrite Ht, Hq.
  - destruct (messageQueue s) as [|next rest].
    + destruct Hnext as (Ht & _ & Hf & Hc). repeat split; assumption.
    + destruct Hnext as (_ & Hf & Hrest). split; [congruence|exact Hrest].
  - intros Hnt.
    assert (Hnt' : noTransient (evs ++ [SendSettles t 0 (Rejected e)]) = true).
    { unfold noTransient in *. rewrite forallb_app, Hnt. simpl. now rewrite Hre. }
    assert (Hrun' : run rt config initial (evs ++ [SendSettles t 0 (Rejected e)])
                    = Some s1).
    { now rewrite run_app, Hrun, run_one. }
    pose proof (run_orderInv _ [] initial s1 initial_orderInv Hrun' Hnt')
      as (_ & Hord & _).
    rewrite Hord. simpl.
    clear. induction evs as [|[| |] evs IH]; simpl; congruence.
Qed.

Lemma prefix_iff (needle s : string) :
  String.prefix needle s = true <-> exists r, s = needle ++ r.
Proof.
  revert s. induction needle as [|c needle IH]; intros s.
  - rewrite prefix_empty. split; [intros _; now exists s|reflexivity].
  - destruct s as [|x s]; simpl.
    + split; [discriminate|]. intros [r Hr]. discriminate Hr.
    + destruct (ascii_dec c x) as [->|Hne].
      * rewrite IH. split; intros [r Hr]; exists r; congruence.
      * split; [discriminate|]. intros [r Hr]. congruence.
Qed.

Lemma includes_iff (s needle : string) :
  includes s needle = true <-> exists l r, s = l ++ needle ++ r.
Proof.
  induction s as [|x s IH]; cbn [includes]; rewrite orb_true_iff, prefix_iff.
  - split.
    + intros [[r Hr]|H]; [|discriminate]. now exists EmptyString, r.
    + intros (l & r & H). left. destruct l; [now exists r|discriminate].
  - rewrite IH. split.
    + intros [[r Hr]|(l & r & H)]; [now exists EmptyString, r|].
      exists (String x l), r. simpl. now rewrite H.
    + intros (l & r & H). destruct l as [|y l]; [left; now exists r|].
      right. exists l, r. simpl in H. congruence.
Qed.

(** C6.  Line 135 decides on the message string alone: the event is dropped
    exactly when the string contains [can't parse entities] or
    [Bad Request], and requeued for every other string.  The string is the
    [message] of an [Error] and the string conversion of any other thrown
    value, and nothing else of the error is looked at.  In a state with a
    send in flight, a rejection goes down as that decision says, with the
    appointment put back at the front of the queue or gone from what is
    pending. *)
Theorem retry_decision_by_message :
  (forall msg : string,
     retriable msg = false <->
     (exists l r, msg = l ++ "can't parse entities" ++ r) \/
     (exists l r, msg = l ++ "Bad Request" ++ r)) /\
  (forall m : string, errorMessageOf (ErrorInstance m) = m) /\
  (forall v : string, errorMessageOf (ThrownValue v) = v) /\
  (forall (evs : list Event) (s : State) (a : VisaAppointment) (called t : Z)
          (e : JsError),
     run rt config initial evs = Some s ->
     tasks s = [AwaitSend a called] ->
     exists s1,
       step rt config s (SendSettles t 0 (Rejected e)) = Some s1 /\
       let msg := match e with
                  | ErrorInstance m => m
                  | ThrownValue v => v
                  end in
       if includes msg "can't parse entities" || includes msg "Bad Request"
       then outcomes s1 = (outcomes s ++ [Dropped a])%list /\
            (held s1 ++ flying s1 ++ messageQueue s1)%list = messageQueue s /\
            existsb isRetryPause (tasks s1) = false
       else outcomes s1 = (outcomes s ++ [Requeued a])%list /\
            messageQueue s1 = a :: messageQueue s /\
            tasks s1 = [AwaitRetryPause t (retryAfter config)]).
Proof.
  split; [|split; [reflexivity|split; [reflexivity|]]].
  - intros msg. unfold retriable.
    rewrite andb_false_iff, !negb_false_iff, !includes_iff. reflexivity.
  - intros evs s a called t e Hrun Htasks. cbv zeta.
    assert (Hdec : retriable (errorMessageOf e) =
                   negb (includes match e with
                                  | ErrorInstance m => m
                                  | ThrownValue v => v
                                  end "can't parse entities"
                         || includes match e with
                                     | ErrorInstance m => m
                                     | ThrownValue v => v
                                     end "Bad Request")).
    { unfold retriable. rewrite negb_orb. destruct e; reflexivity. }
    destruct (retriable (errorMessageOf e)) eqn:Hre.
    + symmetry in Hdec. apply negb_true_iff in Hdec. rewrite Hdec.
      destruct (reject_transient s a called t e Htasks Hre)
        as (s1 & H1 & Hq1 & Ht1 & _ & _ & _ & Ho1).
      exists s1. repeat split; assumption.
    + symmetry in Hdec. apply negb_false_iff in Hdec. rewrite Hdec.
      destruct (reject_content s a called t e Htasks Hre)
        as (s1 & H1 & _ & Ho1 & Hp1 & _ & Hnext).
      exists s1. repeat split; try assumption.
      unfold held, flying. destruct (messageQueue s) as [|next rest].
      * destruct Hnext as (Ht & Hq & _). now rewrite Ht, Hq.
      * destruct Hnext as (Hq & _ & [[Ht _]|[d [Ht _]]]); now rewrite Ht, Hq.
Qed.

(** C7.  [sendNotification] is total and answers [true] in every state and
    for every appointment.  It puts the appointment behind everything that
    is pending and leaves the history and [lastMessageSentAt] alone; when an
    activation exists the call only appends to the queue, and otherwise it
    starts one, so that a pass is running when the call returns. *)
Theorem sendNotification_accepts (a : VisaAppointment) (s : State) :
  fst (sendNotification rt config a s) = true /\
  outcomes (snd (sendNotification rt config a s)) = outcomes s /\
  lastMessageSentAt (snd (sendNotification rt config a s)) = lastMessageSentAt s /\
  (singleConsumer s ->
   let s' := snd (sendNotification rt config a s) in
   (held s' ++ flying s' ++ messageQueue s')%list
     = (held s ++ flying s ++ messageQueue s ++ [a])%list /\
   isProcessingQueue s' = true /\
   singleConsumer s' /\
   (isProcessingQueue s = true ->
    tasks s' = tasks s /\ calls s' = calls s /\
    messageQueue s' = (messageQueue s ++ [a])%list) /\
   (isProcessingQueue s = false -> exists task, tasks s' = [task])).
Proof.
  split; [reflexivity|].
  assert (Hstep : step rt config (setClock (clock s) s) (Notify (clock s) a)
                  = Some (snd (sendNotification rt config a s))).
  { destruct s; reflexivity. }
  destruct (step_frame _ _ _ Hstep) as (Hl & Ho & _).
  split; [rewrite Ho, app_nil_r; now destruct s|].
  split; [rewrite Hl; now destruct s|].
  intros Hsc. clear Hstep Hl Ho. cbv zeta. unfold held, flying.
  destruct s as [? q f ? ts ? ? ?]. unfold singleConsumer in *. simpl in Hsc.
  destruct ts as [|task [|]]; try contradiction; subst f;
    unfold_service; simpl.
  - destruct (q ++ [a])%list as [|x rest] eqn:Hq;
      [now apply app_eq_nil in Hq|].
    destruct (ltb _ _); destruct (debug config); simpl;
      repeat split; try discriminate; eauto.
  - rewrite <- !app_assoc. repeat split. discriminate.
Qed.

(** C10.  A step whose send attempt failed, whether the event was dropped
    or requeued, leaves [lastMessageSentAt] as it was; a step that changes
    it is the settling of a successful send, which sets it to the time of
    that turn. *)
Theorem failed_send_keeps_lastMessageSentAt (s s' : State) :
  (forall t i e,
     step rt config s (SendSettles t i (Rejected e)) = Some s' ->
     lastMessageSentAt s' = lastMessageSentAt s) /\
  (forall ev,
     step rt config s ev = Some s' ->
     lastMessageSentAt s' <> lastMessageSentAt s ->
     exists t i, ev = SendSettles t i Resolved /\ lastMessageSentAt s' = t) /\
  (forall t i,
     step rt config s (SendSettles t i Resolved) = Some s' ->
     lastMessageSentAt s' = t).
Proof.
  split; [|split].
  - intros t i e Hstep. exact (proj1 (step_frame _ _ _ Hstep)).
  - intros ev Hstep Hne. pose proof (proj1 (step_frame _ _ _ Hstep)) as H.
    destruct ev as [| |t i [|e]]; try contradiction. now exists t, i.
  - intros t i Hstep. exact (proj1 (step_frame _ _ _ Hstep)).
Qed.

(** ** Further invariants of the dispatcher *)

(** X6.  In every reachable state at most one activation of [processQueue]
    exists, and [isProcessingQueue] is true exactly when one does. *)
Theorem single_consumer_discipline (evs : list Event) (s : State) :
  run rt config initial evs = Some s ->
  (List.length (tasks s) <= 1)%nat /\
  (isProcessingQueue s = true <-> tasks s <> []).
Proof.
  intros Hrun. pose proof (reachable_singleConsumer evs s Hrun) as H.
  unfold singleConsumer in H.
  destruct (tasks s) as [|t [|t' ts]]; simpl; [| |contradiction].
  - rewrite H. split; [lia|]. split; [discriminate|congruence].
  - rewrite H. split; [lia|]. split; [discriminate|reflexivity].
Qed.

(** X7.  Whatever fails, nothing handed in is lost, duplicated or reordered: the
    appointments delivered or dropped so far, then the one an activation
    holds, then the queue, are the appointments handed in, in order. *)
Theorem nothing_lost_or_reordered (evs : list Event) (s : State) :
  run rt config initial evs = Some s ->
  (finishedOf (outcomes s) ++ held s ++ flying s ++ messageQueue s)%list
    = notified evs.
Proof.
  intros Hrun.
  assert (Hpend : pendingInv [] initial) by (split; reflexivity).
  exact (proj2 (run_pendingInv evs [] initial s Hpend Hrun)).
Qed.

Lemma step_callsInv (s s' : State) (ev : Event) :
  callsInv rt config s -> step rt config s ev = Some s' -> callsInv rt config s'.
Proof.
  intros (Hsc & Hmap & Hwf) Hstep.
  split; [exact (step_singleConsumer _ _ _ Hsc Hstep)|].
  unfold flying in *.
  step_cases s ev Hsc Hstep; simpl in *.
  all: rewrite ?map_app, ?app_nil_r in *; simpl.
  all: split; [|first [assumption | apply Forall_snoc; [assumption|now repeat split]]].
  all: try assumption; try congruence.
  all: try (rewrite Hmap, <- ?app_assoc; reflexivity).
Qed.

Lemma initial_callsInv : callsInv rt config initial.
Proof. repeat split. constructor. Qed.

(** X8.  Every call of [sendMessage] carries the formatted text of its
    appointment to the configured channel in HTML mode, and the calls are,
    one for one and in order, the attempts settled so far followed by the
    one still in flight: no call is made that is not accounted for. *)
Theorem calls_are_accounted_for (evs : list Event) (s : State) :
  run rt config initial evs = Some s ->
  map callFor (calls s) = (map attempted (outcomes s) ++ flying s)%list /\
  Forall (fun c => callText c = Formatter.formatMessage rt (callFor c) /\
                   callChat c = channelId config /\
                   callParseMode c = "HTML") (calls s).
Proof.
  intros Hrun.
  exact (proj2 (run_invariant (callsInv rt config) step_callsInv evs initial s
                              initial_callsInv Hrun)).
Qed.

Lemma step_stallInv (s s' : State) (ev : Event) :
  stallInv s -> step rt config s ev = Some s' -> stallInv s'.
Proof.
  intros (Hsc & Hst) Hstep.
  split; [exact (step_singleConsumer _ _ _ Hsc Hstep)|].
  unfold backlogHead in *.
  step_cases s ev Hsc Hstep; simpl in *; try exact I.
  all: try (left; reflexivity).
  all: try (right; exact Hst).
  all: try (eexists _, _, _; split; reflexivity).
  destruct Hst as (os & a & rest & -> & ->).
  exists os, a, (rest ++ [appointment])%list. split; reflexivity.
Qed.

Lemma initial_stallInv : stallInv initial.
Proof. split; [reflexivity|]. left. reflexivity. Qed.

(** X9.  The dispatcher is idle with appointments left in the queue only right
    after a transient failure: the latest settled attempt was requeued, and
    its appointment heads the queue.  The same holds all through the retry
    pause. *)
Theorem backlog_only_after_transient_failure (evs : list Event) (s : State) :
  run rt config initial evs = Some s ->
  (tasks s = [] -> messageQueue s <> [] -> backlogHead s) /\
  (forall armed delay, tasks s = [AwaitRetryPause armed delay] -> backlogHead s).
Proof.
  intros Hrun.
  pose proof (run_invariant stallInv step_stallInv evs initial s
                            initial_stallInv Hrun) as [_ H].
  split.
  - intros Ht Hq. rewrite Ht in H. destruct H as [H|H]; [contradiction|exact H].
  - intros armed delay Ht. rewrite Ht in H. exact H.
Qed.

Lemma step_delayInv (s s' : State) (ev : Event) :
  delayInv config s ->
  step rt config s ev = Some s' ->
  (clock s <= eventTime ev)%Z ->
  delayInv config s'.
Proof.
  intros (Hsc & Hle & Htasks) Hstep Hclock.
  split; [exact (step_singleConsumer _ _ _ Hsc Hstep)|].
  step_cases s ev Hsc Hstep; simpl in *.
  all: repeat match goal with
              | H : Forall _ (_ :: _) |- _ => inversion H; subst; clear H
              | H : ltb _ _ = true |- _ => apply ltb_true in H
              | H : ltb _ _ = false |- _ => apply ltb_false in H
              | H : _ /\ _ |- _ => destruct H
              | H : context [inject_Z (_ - _)] |- _ =>
                  unfold Z.sub in H; rewrite inject_Z_plus, inject_Z_opp in H
              end.
  all: unfold Z.sub; rewrite ?inject_Z_plus, ?inject_Z_opp.
  all: (split; [lia|]); repeat constructor; try assumption.
  all: match goal with
       | Hl : (?l <= ?c)%Z, Hc : (?c <= ?t)%Z |- _ =>
           assert (inject_Z l <= inject_Z t) by (rewrite <- Zle_Qle; lia)
       end.
  all: lra.
Qed.

Lemma initial_delayInv : delayInv config initial.
Proof. split; [reflexivity|]. split; [reflexivity|constructor]. Qed.

Lemma run_delayInv (evs : list Event) (s s' : State) :
  delayInv config s ->
  run rt config s evs = Some s' ->
  clockNeverBack rt config s evs = true ->
  delayInv config s'.
Proof.
  revert s. induction evs as [|ev evs IH]; intros s Hinv Hrun Hmono.
  - simpl in Hrun. now took Hrun.
  - simpl in Hrun, Hmono. apply andb_prop in Hmono as [Ht Hmono].
    apply Z.leb_le in Ht.
    destruct (step rt config s ev) as [s1|] eqn:E; [|discriminate].
    exact (IH s1 (step_delayInv _ _ _ Hinv E Ht) Hrun Hmono).
Qed.

(** X10.  With a positive rate and a clock that does not go back, the rate
    limiter never sleeps longer than the required delay: whenever an
    activation waits at line 110, its timer was armed for a positive time of
    at most [requiredDelay], which is [60000 / rateLimit], and it runs out
    exactly [requiredDelay] after [lastMessageSentAt]; and
    [lastMessageSentAt] is never ahead of the clock.  Nothing is assumed of
    when the timers fire. *)
Theorem rate_delay_is_bounded (evs : list Event) (s : State)
    (a : VisaAppointment) (armedAt : Z) (delay : Q) :
  0 < rateLimit config ->
  run rt config initial evs = Some s ->
  clockNeverBack rt config initial evs = true ->
  tasks s = [AwaitRateDelay a armedAt delay] ->
  0 < delay /\ delay <= requiredDelay config /\
  requiredDelay config == 60000 / rateLimit config /\
  inject_Z armedAt + delay
    == inject_Z (lastMessageSentAt s) + requiredDelay config /\
  (lastMessageSentAt s <= clock s)%Z.
Proof.
  intros Hpos Hrun Hmono Ht.
  pose proof (run_delayInv evs initial s initial_delayInv Hrun Hmono)
    as (_ & Hle & Hall).
  rewrite Ht in Hall. inversion Hall as [|? ? Hhd _]; subst.
  destruct Hhd as (H1 & H2 & H3).
  split; [exact H1|]. split; [exact H2|].
  split; [exact (requiredDelay_value Hpos)|].
  split; [exact H3|exact Hle].
Qed.

Lemma step_mute (c1 c2 : Config) (s1 s2 : State) (ev : Event) :
  sameButDebug c1 c2 ->
  mute s1 = mute s2 ->
  option_map mute (step rt c1 s1 ev) = option_map mute (step rt c2 s2 ev).
Proof.
  intros Hcfg Hmute.
  destruct s1 as [l1 q1 f1 k1 ts1 cs1 co1 os1], s2 as [l2 q2 f2 k2 ts2 cs2 co2 os2].
  simpl in Hmute. injection Hmute as -> -> -> -> -> -> ->.
  destruct c1 as [tok1 ch1 r1 ra1 d1], c2 as [tok2 ch2 r2 ra2 d2].
  unfold sameButDebug in Hcfg. simpl in Hcfg. destruct Hcfg as (-> & -> & ->).
  destruct ev as [t a | t i | t i r]; unfold step; cbn [tasks].
  - unfold_service. unfold requiredDelay.
    destruct d1, d2; simpl; (destruct f2; simpl; [reflexivity|]);
      (destruct (q2 ++ [a])%list; simpl; [reflexivity|]);
      destruct (ltb _ _); reflexivity.
  - destruct (nth_error ts2 i) as [[? ? ?|? ?|? ?]|]; try reflexivity;
      unfold_service; destruct d1, d2; reflexivity.
  - destruct (nth_error ts2 i) as [[? ? ?|? ?|? ?]|]; try reflexivity.
    destruct r as [|e]; unfold_service; unfold requiredDelay.
    + destruct d1, d2; simpl; (destruct q2; simpl; [reflexivity|]);
        destruct (ltb _ _); reflexivity.
    + destruct d1, d2; simpl; (destruct (retriable _); simpl; [reflexivity|]);
        (destruct q2; simpl; [reflexivity|]); destruct (ltb _ _); reflexivity.
Qed.

Lemma run_mute (c1 c2 : Config) (evs : list Event) (s1 s2 : State) :
  sameButDebug c1 c2 ->
  mute s1 = mute s2 ->
  option_map mute (run rt c1 s1 evs) = option_map mute (run rt c2 s2 evs).
Proof.
  intros Hcfg. revert s1 s2. induction evs as [|ev evs IH]; intros s1 s2 Hmute.
  - simpl. now rewrite Hmute.
  - simpl. pose proof (step_mute c1 c2 s1 s2 ev Hcfg Hmute) as Hstep.
    destruct (step rt c1 s1 ev) as [s1'|], (step rt c2 s2 ev) as [s2'|];
      simpl in Hstep; try discriminate; [|reflexivity].
    apply IH. congruence.
Qed.

(** X12.  The debug flag changes nothing but the console: two configurations
    that agree on the channel, the rate and the retry pause take every
    schedule through the same states, console output apart, and accept the
    same schedules. *)
Theorem debug_flag_only_affects_console (c2 : Config) (evs : list Event) :
  sameButDebug config c2 ->
  option_map mute (run rt config initial evs)
    = option_map mute (run rt c2 initial evs).
Proof. intros Hcfg. apply run_mute; [exact Hcfg|reflexivity]. Qed.


(** X11.  With a clock that does not go back and timers that do not fire early,
    every attempt, whether it will succeed or fail, is called no earlier than
    [requiredDelay] after the latest successful send ended: failed attempts
    are rate limited like any other. *)
Theorem every_attempt_respects_rate (evs : list Event) (s : State)
    (a : VisaAppointment) (calledAt : Z) :
  run rt config initial evs = Some s ->
  wellTimed rt config initial evs = true ->
  tasks s = [AwaitSend a calledAt] ->
  inject_Z (lastMessageSentAt s) + requiredDelay config <= inject_Z calledAt /\
  (calledAt <= clock s)%Z.
Proof.
  intros Hrun Hwt Ht.
  pose proof (run_rateInv evs initial s initial_rateInv Hrun Hwt)
    as (_ & _ & _ & Hall).
  rewrite Ht in Hall. inversion Hall as [|? ? Hhd _]; subst. exact Hhd.
Qed.


End DispatcherFacts.

(** * The claims on concrete schedules *)

Section Scenarios.

Import Dispatcher.
Import Samples.

Lemma fifo_delivery_witness :
  map callFor (calls (after twoDelivered)) = [E; F] /\
  deliveredOf (outcomes (after twoDelivered)) = [E; F].
Proof.
  destruct (fifo_delivery runtime settings twoDelivered (after twoDelivered))
    as (_ & _ & _ & Hidle);
    [vm_compute; reflexivity | vm_compute; reflexivity |].
  destruct Hidle as (_ & Hcalls & Hdone); [vm_compute; reflexivity|].
  split; [exact Hcalls|exact Hdone].
Defined.

Lemma rate_bound_witness :
  60000 / rateLimit settings <= inject_Z 2100 - inject_Z 1100.
Proof.
  destruct (rate_bound runtime settings twoDelivered (after twoDelivered))
    as (_ & Hgap & _);
    [reflexivity | vm_compute; reflexivity | vm_compute; reflexivity |].
  destruct (Hgap [] [] 1000%Z 1100%Z 2100%Z 2200%Z) as (H & _);
    [vm_compute; reflexivity|].
  exact H.
Defined.

Lemma transient_failure_pauses_and_stops_witness :
  exists s3 s4,
    tasks s3 = [] /\ isProcessingQueue s3 = false /\
    tasks s4 <> [] /\ isProcessingQueue s4 = true.
Proof.
  destruct (transient_failure_pauses_and_stops runtime settings sendingE
              (after sendingE) E G 1000 1100 6100 7000 timeout [(1200%Z, F)])
    as (s1 & s2 & s3 & s4 & _ & _ & _ & _ & _ & _ & _ & _ & _ & Ht3 & Hf3 & _ &
        _ & _ & _ & Hf4 & _ & Ht4);
    [vm_compute; reflexivity | vm_compute; reflexivity | vm_compute; reflexivity |].
  exists s3, s4. repeat split; try assumption.
  destruct Ht4 as [H|[d H]]; rewrite H; discriminate.
Defined.

(** C3 as stated fails where it lets the items left in the queue restart
    the loop: after the timeout and the pause, [E] and [F] are queued, no
    activation exists, the flag is off, and nothing is outstanding that
    could start one. *)
Lemma residual_items_do_not_restart :
  run runtime settings initial stoppedAfterTimeout = Some (after stoppedAfterTimeout) /\
  messageQueue (after stoppedAfterTimeout) = [E; F] /\
  tasks (after stoppedAfterTimeout) = [] /\
  isProcessingQueue (after stoppedAfterTimeout) = false /\
  forall t i r,
    step runtime settings (after stoppedAfterTimeout) (TimerFires t i) = None /\
    step runtime settings (after stoppedAfterTimeout) (SendSettles t i r) = None.
Proof.
  split; [vm_compute; reflexivity|].
  split; [vm_compute; reflexivity|].
  split; [vm_compute; reflexivity|].
  split; [vm_compute; reflexivity|].
  intros t i r. apply idle_waits. vm_compute; reflexivity.
Qed.

Lemma requeued_event_goes_first_witness :
  exists s3 s4,
    messageQueue s3 = [E; F; G] /\
    (held s4 ++ flying s4)%list = [E] /\
    messageQueue s4 = [F; G; E].
Proof.
  destruct (requeued_event_goes_first runtime settings sendingE
              (after sendingE) E F G E [] 1000 1100 6100 7000 timeout [])
    as (s1 & s2 & s3 & s4 & _ & _ & _ & _ & Hq3 & _ & Hh4 & Hq4 & _);
    [vm_compute; reflexivity | vm_compute; reflexivity
    | vm_compute; reflexivity | vm_compute; reflexivity |].
  exists s3, s4. repeat split; assumption.
Defined.

Lemma content_error_drops_witness :
  exists s1,
    step runtime settings (after sendingE) (SendSettles 1100 0 (Rejected badRequest))
      = Some s1 /\
    (held s1 ++ flying s1 ++ messageQueue s1)%list = [F; G] /\
    existsb isRetryPause (tasks s1) = false.
Proof.
  destruct (content_error_drops runtime settings sendingE (after sendingE)
              E 1000 1100 badRequest)
    as (s1 & Hstep & _ & _ & Hpend & Hnp & _);
    [vm_compute; reflexivity | vm_compute; reflexivity | vm_compute; reflexivity |].
  exists s1. repeat split; assumption.
Defined.

(** C5 as stated fails in the count of attempts when a transient failure
    came first: [E] is sent, times out, is sent again and only then rejected
    as a bad request and dropped, which makes two calls for it. *)
Lemma dropped_after_two_attempts :
  run runtime settings initial timeoutThenBadRequest
    = Some (after timeoutThenBadRequest) /\
  map callFor (calls (after timeoutThenBadRequest)) = [E; E; F] /\
  List.length (filter (fun c => Z.eqb (id (callFor c)) (id E))
                      (calls (after timeoutThenBadRequest))) = 2%nat /\
  outcomes (after timeoutThenBadRequest) = [Requeued E; Dropped E] /\
  retriable (errorMessageOf badRequest) = false.
Proof. repeat split; vm_compute; reflexivity. Qed.

Lemma retry_decision_by_message_witness :
  retriable "400: Bad Request: message text is empty" = false /\
  (exists s1,
     step runtime settings (after sendingE)
          (SendSettles 1100 0 (Rejected chatNotFound)) = Some s1 /\
     outcomes s1 = [Dropped E] /\
     (held s1 ++ flying s1 ++ messageQueue s1)%list = [F; G]) /\
  (exists s1,
     step runtime settings (after sendingE)
          (SendSettles 1100 0 (Rejected thrownBadRequest)) = Some s1 /\
     outcomes s1 = [Dropped E] /\
     (held s1 ++ flying s1 ++ messageQueue s1)%list = [F; G]) /\
  (exists s1,
     step runtime settings (after sendingE)
          (SendSettles 1100 0 (Rejected timeout)) = Some s1 /\
     outcomes s1 = [Requeued E] /\
     messageQueue s1 = [E; F; G]) /\
  (exists s1,
     step runtime settings (after sendingE)
          (SendSettles 1100 0 (Rejected thrownTimeout)) = Some s1 /\
     outcomes s1 = [Requeued E] /\
     messageQueue s1 = [E; F; G]).
Proof.
  destruct (retry_decision_by_message runtime settings)
    as (Hmsg & _ & _ & Hstep).
  split; [|split; [|split; [|split]]].
  - apply Hmsg. right. exists "400: ", ": message text is empty". reflexivity.
  - destruct (Hstep sendingE (after sendingE) E 1000%Z 1100%Z chatNotFound)
      as (s1 & H1 & Hdec); [vm_compute; reflexivity | vm_compute; reflexivity |].
    exists s1. split; [exact H1|].
    change (outcomes s1 = ([] ++ [Dropped E])%list /\
            (held s1 ++ flying s1 ++ messageQueue s1)%list = [F; G] /\
            existsb isRetryPause (tasks s1) = false) in Hdec.
    split; [exact (proj1 Hdec)|exact (proj1 (proj2 Hdec))].
  - destruct (Hstep sendingE (after sendingE) E 1000%Z 1100%Z thrownBadRequest)
      as (s1 & H1 & Hdec); [vm_compute; reflexivity | vm_compute; reflexivity |].
    exists s1. split; [exact H1|].
    change (outcomes s1 = ([] ++ [Dropped E])%list /\
            (held s1 ++ flying s1 ++ messageQueue s1)%list = [F; G] /\
            existsb isRetryPause (tasks s1) = false) in Hdec.
    split; [exact (proj1 Hdec)|exact (proj1 (proj2 Hdec))].
  - destruct (Hstep sendingE (after sendingE) E 1000%Z 1100%Z timeout)
      as (s1 & H1 & Hdec); [vm_compute; reflexivity | vm_compute; reflexivity |].
    exists s1. split; [exact H1|].
    change (outcomes s1 = ([] ++ [Requeued E])%list /\
            messageQueue s1 = [E; F; G] /\
            tasks s1 = [AwaitRetryPause 1100 (retryAfter settings)]) in Hdec.
    split; [exact (proj1 Hdec)|exact (proj1 (proj2 Hdec))].
  - destruct (Hstep sendingE (after sendingE) E 1000%Z 1100%Z thrownTimeout)
      as (s1 & H1 & Hdec); [vm_compute; reflexivity | vm_compute; reflexivity |].
    exists s1. split; [exact H1|].
    change (outcomes s1 = ([] ++ [Requeued E])%list /\
            messageQueue s1 = [E; F; G] /\
            tasks s1 = [AwaitRetryPause 1100 (retryAfter settings)]) in Hdec.
    split; [exact (proj1 Hdec)|exact (proj1 (proj2 Hdec))].
Defined.

Lemma sendNotification_accepts_witness :
  fst (sendNotification runtime settings G (after stoppedAfterTimeout)) = true /\
  isProcessingQueue (snd (sendNotification runtime settings G
                            (after stoppedAfterTimeout))) = true.
Proof.
  destruct (sendNotification_accepts runtime settings G (after stoppedAfterTimeout))
    as (Hret & _ & _ & Hrest).
  split; [exact Hret|].
  destruct Hrest as (_ & Hflag & _); [vm_compute; reflexivity|].
  exact Hflag.
Defined.

Lemma failed_send_keeps_lastMessageSentAt_witness :
  lastMessageSentAt
    (after (sendingE ++ [SendSettles 1100 0 (Rejected badRequest)]))
  = lastMessageSentAt (after sendingE).
Proof.
  destruct (failed_send_keeps_lastMessageSentAt runtime settings (after sendingE)
              (after (sendingE ++ [SendSettles 1100 0 (Rejected badRequest)])))
    as (Hfail & _).
  apply (Hfail 1100%Z 0%nat badRequest). vm_compute; reflexivity.
Defined.

End Scenarios.

(** * The further properties on concrete inputs *)

Section MoreScenarios.

Import Formatter.
Import Dispatcher.
Import Samples.

Lemma escapeHtml_identity_on_clean_text_witness :
  escapeHtml (Some placeholder) = placeholder.
Proof.
  apply (proj1 (escapeHtml_identity_on_clean_text placeholder)).
  vm_compute; reflexivity.
Defined.

Lemma escapeHtml_twice_witness :
  escapeHtml (Some (escapeHtml (Some placeholder))) = escapeHtml (Some placeholder).
Proof.
  apply (proj2 (escapeHtml_twice placeholder)). vm_compute; reflexivity.
Defined.

Lemma escapeHtml_injective_witness : "A&amp;B" = "A&amp;B".
Proof.
  apply (escapeHtml_injective "A&amp;B" "A&amp;B"). vm_compute; reflexivity.
Defined.

Lemma single_consumer_discipline_witness :
  (List.length (tasks (after sendingE)) <= 1)%nat /\
  (isProcessingQueue (after sendingE) = true <-> tasks (after sendingE) <> []).
Proof.
  apply (single_consumer_discipline runtime settings sendingE (after sendingE)).
  vm_compute; reflexivity.
Defined.

Lemma nothing_lost_or_reordered_witness :
  (finishedOf (outcomes (after timeoutThenBadRequest))
   ++ held (after timeoutThenBadRequest)
   ++ flying (after timeoutThenBadRequest)
   ++ messageQueue (after timeoutThenBadRequest))%list = [E; F].
Proof.
  apply (nothing_lost_or_reordered runtime settings timeoutThenBadRequest
           (after timeoutThenBadRequest)).
  vm_compute; reflexivity.
Defined.

Lemma calls_are_accounted_for_witness :
  map callFor (calls (after timeoutThenBadRequest)) =
  (map attempted (outcomes (after timeoutThenBadRequest))
   ++ flying (after timeoutThenBadRequest))%list.
Proof.
  apply (calls_are_accounted_for runtime settings timeoutThenBadRequest
           (after timeoutThenBadRequest)).
  vm_compute; reflexivity.
Defined.

Lemma backlog_only_after_transient_failure_witness :
  backlogHead (after stoppedAfterTimeout).
Proof.
  destruct (backlog_only_after_transient_failure runtime settings
              stoppedAfterTimeout (after stoppedAfterTimeout)) as [Hidle _];
    [vm_compute; reflexivity|].
  apply Hidle; [vm_compute; reflexivity|vm_compute; discriminate].
Defined.

Lemma rate_delay_is_bounded_witness :
  exists delay,
    tasks (after waitingFThenG) = [AwaitRateDelay F 1100 delay] /\
    0 < delay /\ delay <= requiredDelay settings.
Proof.
  exists (match tasks (after waitingFThenG) with
          | [AwaitRateDelay _ _ d] => d
          | _ => 0
          end).
  split; [vm_compute; reflexivity|].
  destruct (rate_delay_is_bounded runtime settings waitingFThenG
              (after waitingFThenG) F 1100
              (match tasks (after waitingFThenG) with
               | [AwaitRateDelay _ _ d] => d
               | _ => 0
               end)) as (Hpos & Hle & _);
    [reflexivity | vm_compute; reflexivity | vm_compute; reflexivity
    | vm_compute; reflexivity |].
  split; [exact Hpos|exact Hle].
Defined.

Lemma every_attempt_respects_rate_witness :
  inject_Z (lastMessageSentAt (after sendingF)) + requiredDelay settings
    <= inject_Z 2100.
Proof.
  destruct (every_attempt_respects_rate runtime settings sendingF (after sendingF)
              F 2100) as (H & _);
    [vm_compute; reflexivity | vm_compute; reflexivity | vm_compute; reflexivity |].
  exact H.
Defined.

Lemma debug_flag_only_affects_console_witness :
  option_map mute (run runtime settings initial timeoutThenBadRequest)
    = option_map mute (run runtime verbose initial timeoutThenBadRequest).
Proof.
  apply (debug_flag_only_affects_console runtime settings verbose
           timeoutThenBadRequest).
  repeat split.
Defined.

End MoreScenarios.
